(** * debugutils/logs.go: log request building and concurrent archiving

    A shallow embedding of [src/debugutils/logs.go].  The Kubernetes API
    types the file uses are modelled by the fields the code reads or writes.
    The interfaces it calls ([PodFinder], [CoreV1Interface], [StorageClient])
    are records of operations, and the calls on a REST request and on its
    stream are parameters, so that every statement holds for any
    implementation of them.  Calls that act on the cluster or on the storage
    thread a world state and are taken to return. *)

From Stdlib Require Import String ZArith List Lia.
From stdpp Require Import base option list strings gmap.

Open Scope string_scope.
Open Scope list_scope.

(** ** Kubernetes and Go types used by the file *)

(** Go's [error] interface, by the message it carries. *)
Definition error : Type := string.

(** [time.Time], as an instant on the integer time line. *)
Definition Time : Type := Z.

(** [corev1.PodLogOptions] (k8s.io/api/core/v1), without its [TypeMeta].
    Pointer fields are options: [None] is the nil pointer. *)
Record PodLogOptions : Type := mkPodLogOptions {
  Container : string;
  Follow : bool;
  Previous : bool;
  SinceSeconds : option Z;
  SinceTime : option Time;
  Timestamps : bool;
  TailLines : option Z;
  LimitBytes : option Z
}.

(** [&corev1.PodLogOptions{}]: every field at its zero value. *)
Definition emptyPodLogOptions : PodLogOptions :=
  mkPodLogOptions "" false false None None false None None.

Definition set_Container (c : string) (o : PodLogOptions) : PodLogOptions :=
  mkPodLogOptions c (Follow o) (Previous o) (SinceSeconds o) (SinceTime o)
                  (Timestamps o) (TailLines o) (LimitBytes o).

Definition set_Follow (b : bool) (o : PodLogOptions) : PodLogOptions :=
  mkPodLogOptions (Container o) b (Previous o) (SinceSeconds o) (SinceTime o)
                  (Timestamps o) (TailLines o) (LimitBytes o).

Definition set_Previous (b : bool) (o : PodLogOptions) : PodLogOptions :=
  mkPodLogOptions (Container o) (Follow o) b (SinceSeconds o) (SinceTime o)
                  (Timestamps o) (TailLines o) (LimitBytes o).

Definition set_SinceTime (t : option Time) (o : PodLogOptions) : PodLogOptions :=
  mkPodLogOptions (Container o) (Follow o) (Previous o) (SinceSeconds o) t
                  (Timestamps o) (TailLines o) (LimitBytes o).

(** [metav1.ObjectMeta], [corev1.Container], [corev1.PodSpec], [corev1.Pod]
    and [corev1.PodList], by the fields the file touches.  A container's
    [Name] is [CName] here and the [ObjectMeta] embedded in a pod is
    [PodObjectMeta], to keep the names apart. *)
Record ObjectMeta : Type := mkObjectMeta {
  Name : string;
  Namespace : string;
  Labels : gmap string string
}.

Record ContainerSpec : Type := mkContainer { CName : string }.

Record PodSpec : Type := mkPodSpec {
  Containers : list ContainerSpec;
  InitContainers : list ContainerSpec
}.

Record Pod : Type := mkPod {
  PodObjectMeta : ObjectMeta;
  Spec : PodSpec
}.

Record PodList : Type := mkPodList { Items : list Pod }.

(** ** Request options (logs.go, lines 76-91) *)

(** [type LogRequestOptions func(options *corev1.PodLogOptions)]: a function
    that updates the options record it is handed.  A value of a Go function
    type may be nil, hence the [option] wherever such values are passed. *)
Definition LogRequestOptions : Type := PodLogOptions -> PodLogOptions.

Definition FollowLogs : LogRequestOptions := fun options => set_Follow true options.

Definition PreviousLogs : LogRequestOptions := fun options => set_Previous true options.

Definition LogsSince (since : Time) : LogRequestOptions :=
  fun options => set_SinceTime (Some since) options.

Section Builder.

(** [rest.Request] and [kuberesource.UnstructuredResources] are opaque to
    this file. *)
Variable Request : Type.
Variable UnstructuredResources : Type.

(** [corev1client.CoreV1Interface], by the one call chain the file makes:
    [clientset.Pods(namespace).GetLogs(name, opts)].  [GetLogs] receives the
    options record as it is at the moment of the call. *)
Record CoreV1Interface : Type := mkCoreV1 {
  GetLogs : string -> string -> PodLogOptions -> Request
}.

(** The [PodFinder] interface: [GetPods(resources) ([]*corev1.PodList, error)].
    The pair is Go's result pair; [None] is the nil error. *)
Record PodFinder : Type := mkPodFinder {
  GetPods : UnstructuredResources -> list PodList * option error
}.

(** Modelled from the spec: the [LogsRequest] struct and its constructor
    [NewLogsRequest] are declared outside logs.go.  The spec's LogRequest
    holds the owning pod's metadata (namespace, name, labels), the container
    name and the stream handle; logs.go builds one with
    [NewLogsRequest(pod.ObjectMeta, v.Name, request)] and reads the handle
    back as [restRequest.Request]. *)
Record LogsRequest : Type := NewLogsRequest {
  PodMeta : ObjectMeta;
  ContainerName : string;
  LRequest : Request
}.

Record LogRequestBuilder : Type := NewLogRequestBuilder {
  clientset : CoreV1Interface;
  podFinder : PodFinder
}.

(** Lines 138-143: the options record starts empty and every non-nil
    option function is run on it, in list order. *)
Definition apply_opts (optsFunc : list (option LogRequestOptions))
    (opts : PodLogOptions) : PodLogOptions :=
  foldl (fun o f => match f with Some g => g o | None => o end) opts optsFunc.

(** One [for _, v := range ...] loop of [buildLogsRequest] (lines 144-148
    and 149-153).  The loop state is the shared options record, whose
    [Container] field each iteration overwrites, and the result slice. *)
Definition container_loop (lrb : LogRequestBuilder) (pod : Pod)
    (cs : list ContainerSpec) (st : PodLogOptions * list LogsRequest)
    : PodLogOptions * list LogsRequest :=
  foldl (fun st v =>
           let opts := set_Container (CName v) (fst st) in
           let request :=
             GetLogs (clientset lrb) (Namespace (PodObjectMeta pod))
                     (Name (PodObjectMeta pod)) opts in
           (opts, snd st ++ [NewLogsRequest (PodObjectMeta pod) (CName v) request]))
        st cs.

Definition buildLogsRequest (lrb : LogRequestBuilder) (pod : Pod)
    (optsFunc : list (option LogRequestOptions)) : list LogsRequest :=
  let opts := apply_opts optsFunc emptyPodLogOptions in
  let st := container_loop lrb pod (Containers (Spec pod)) (opts, []) in
  let st := container_loop lrb pod (InitContainers (Spec pod)) st in
  snd st.

(** Line 131 calls [lrb.buildLogsRequest(v)] with no variadic argument:
    the callee's [optsFunc] is the empty slice, whatever [opts] holds. *)
Definition RetrieveLogs (lrb : LogRequestBuilder) (pods : PodList)
    (opts : list (option LogRequestOptions)) : list LogsRequest :=
  foldl (fun result v => result ++ buildLogsRequest lrb v []) [] (Items pods).

(** The nil slice and the empty slice are both [[]]. *)
Definition LogsFromUnstructured (lrb : LogRequestBuilder)
    (resources : UnstructuredResources)
    (opts : list (option LogRequestOptions)) : list LogsRequest * option error :=
  let '(pods, err) := GetPods (podFinder lrb) resources in
  match err with
  | Some e => ([], Some e)
  | None =>
      (foldl (fun result v => result ++ RetrieveLogs lrb v opts) [] pods, None)
  end.

Record logCollector : Type := NewLogCollector {
  logRequestBuilder : LogRequestBuilder
}.

Definition GetLogRequests (lc : logCollector) (resources : UnstructuredResources)
    : list LogsRequest * option error :=
  LogsFromUnstructured (logRequestBuilder lc) resources [].

(** The request built for one container of [pod] from the options record
    [opts]. *)
Definition request_for (lrb : LogRequestBuilder) (pod : Pod)
    (opts : PodLogOptions) (v : ContainerSpec) : LogsRequest :=
  NewLogsRequest (PodObjectMeta pod) (CName v)
    (GetLogs (clientset lrb) (Namespace (PodObjectMeta pod))
             (Name (PodObjectMeta pod)) (set_Container (CName v) opts)).

(** The options that are not nil, in order. *)
Definition non_nil (optsFunc : list (option LogRequestOptions))
    : list (option LogRequestOptions) :=
  Some <$> omap id optsFunc.

End Builder.

Arguments GetLogs {Request} _ _ _ _.
Arguments GetPods {UnstructuredResources} _ _.
Arguments NewLogsRequest {Request} _ _ _.
Arguments PodMeta {Request} _.
Arguments ContainerName {Request} _.
Arguments LRequest {Request} _.
Arguments clientset {Request UnstructuredResources} _.
Arguments podFinder {Request UnstructuredResources} _.
Arguments container_loop {Request UnstructuredResources} _ _ _ _.
Arguments buildLogsRequest {Request UnstructuredResources} _ _ _.
Arguments RetrieveLogs {Request UnstructuredResources} _ _ _.
Arguments LogsFromUnstructured {Request UnstructuredResources} _ _ _.
Arguments GetLogRequests {Request UnstructuredResources} _ _.
Arguments request_for {Request UnstructuredResources} _ _ _ _.

(** ** The concurrent archiver: [SaveLogs] (logs.go, lines 51-69)

    [SaveLogs] hands one closure per request to a zero-valued
    [errgroup.Group] and then waits for the group.  The group runs each
    closure in a goroutine of its own, keeps the first non-nil error handed
    to it (under a [sync.Once]) and, having no cancel function, does nothing
    else on an error; [Wait] returns that error once every closure has
    returned.  The goroutines interleave freely: a scheduler, given as the
    list of its choices, decides who moves next. *)

Section Archiver.

Variable Request : Type.

(** [io.ReadCloser], the stream a request opens. *)
Variable Reader : Type.

(** Everything outside the process that the calls act on: the cluster
    serving the streams and the storage behind the client. *)
Variable World : Type.

(** [restRequest.Request.Stream()]. *)
Variable Stream : Request -> World -> (Reader + error) * World.

(** [reader.Close()]; the deferred call drops the error it returns. *)
Variable Close : Reader -> World -> World.

(** [restRequest.ResourceId()], a method declared outside logs.go. *)
Variable ResourceId : LogsRequest Request -> string.

Record StorageObject : Type := mkStorageObject {
  Resource : Reader;
  ObjName : string
}.

(** The [StorageClient] interface: [Save(location, object) error]. *)
Record StorageClient : Type := mkStorageClient {
  Save : string -> StorageObject -> World -> option error * World
}.

(** Where the closure of lines 56-66 stands. *)
Inductive position : Type :=
| Started
| Opened (reader : Reader)
| Saved (reader : Reader) (err : option error)
| Returned (err : option error)
| Done.

(** A goroutine of the group: the request its closure captured
    ([restRequest], line 55) and its position. *)
Record goroutine : Type := mkGoroutine {
  restRequest : LogsRequest Request;
  pc : position
}.

(** The calls a run makes, tagged with the index of the goroutine. *)
Inductive event : Type :=
| EvOpen (i : nat) (reader : Reader)
| EvOpenFail (i : nat) (err : error)
| EvSave (i : nat) (location : string) (obj : StorageObject) (err : option error)
| EvClose (i : nat) (reader : Reader)
| EvReturn (i : nat) (err : option error).

Definition ev_id (e : event) : nat :=
  match e with
  | EvOpen i _ | EvOpenFail i _ | EvSave i _ _ _ | EvClose i _ | EvReturn i _ => i
  end.

Record State : Type := mkState {
  world : World;
  todo : list (LogsRequest Request);   (* what the [for] loop has yet to visit *)
  goroutines : list goroutine;          (* one per [eg.Go] call so far *)
  eg_err : option error;                (* the group's [err] field *)
  trace : list event
}.

Definition init (requests : list (LogsRequest Request)) (w : World) : State :=
  mkState w requests [] None [].

(** Goroutine [i] moves to position [p], leaving the world as [w] and
    the event [ev] in the trace. *)
Definition advance (s : State) (i : nat) (g : goroutine) (p : position)
    (w : World) (ev : event) : State :=
  mkState w (todo s) (<[i := mkGoroutine (restRequest g) p]> (goroutines s))
          (eg_err s) (trace s ++ [ev]).

(** [g.errOnce.Do(func() { g.err = err })], run only for a non-nil [err]. *)
Definition errOnce (slot err : option error) : option error :=
  match err with
  | None => slot
  | Some e => match slot with None => Some e | Some _ => slot end
  end.

Inductive action : Type :=
| Go              (* the loop of line 53 reaches its next request *)
| Run (i : nat).  (* goroutine [i] takes its next step *)

Definition step (storageClient : StorageClient) (location : string)
    (a : action) (s : State) : option State :=
  match a with
  | Go =>
      match todo s with
      | [] => None
      | request :: rest =>
          Some (mkState (world s) rest
                        (goroutines s ++ [mkGoroutine request Started])
                        (eg_err s) (trace s))
      end
  | Run i =>
      match goroutines s !! i with
      | None => None
      | Some g =>
          match pc g with
          | Started =>
              match Stream (LRequest (restRequest g)) (world s) with
              | (inl reader, w) => Some (advance s i g (Opened reader) w (EvOpen i reader))
              | (inr err, w) =>
                  Some (advance s i g (Returned (Some err)) w (EvOpenFail i err))
              end
          | Opened reader =>
              let obj := mkStorageObject reader (ResourceId (restRequest g)) in
              let '(err, w) := Save storageClient location obj (world s) in
              Some (advance s i g (Saved reader err) w (EvSave i location obj err))
          | Saved reader err =>
              Some (advance s i g (Returned err) (Close reader (world s))
                            (EvClose i reader))
          | Returned err =>
              Some (mkState (world s) (todo s)
                            (<[i := mkGoroutine (restRequest g) Done]> (goroutines s))
                            (errOnce (eg_err s) err)
                            (trace s ++ [EvReturn i err]))
          | Done => None
          end
      end
  end.

Fixpoint run (storageClient : StorageClient) (location : string)
    (sched : list action) (s : State) : option State :=
  match sched with
  | [] => Some s
  | a :: sched' =>
      match step storageClient location a s with
      | Some s' => run storageClient location sched' s'
      | None => None
      end
  end.

Definition is_done (g : goroutine) : bool :=
  match pc g with Done => true | _ => false end.

(** [eg.Wait()] is called after the loop and blocks until every goroutine
    is done; [None] is a [Wait] that has not returned. *)
Definition Wait (s : State) : option (option error) :=
  match todo s with
  | [] => if forallb is_done (goroutines s) then Some (eg_err s) else None
  | _ :: _ => None
  end.

(** [SaveLogs] under the scheduler [sched]: the error it returns and the
    state it leaves, or [None] when [sched] is not a complete run. *)
Definition SaveLogs (storageClient : StorageClient) (location : string)
    (requests : list (LogsRequest Request)) (w : World) (sched : list action)
    : option (option error * State) :=
  match run storageClient location sched (init requests w) with
  | Some s => match Wait s with Some err => Some (err, s) | None => None end
  | None => None
  end.

(** *** Observations on traces *)

Definition count (p : event -> bool) (t : list event) : nat :=
  length (List.filter p t).

Definition is_open (e : event) : bool := match e with EvOpen _ _ => true | _ => false end.
Definition is_open_fail (e : event) : bool :=
  match e with EvOpenFail _ _ => true | _ => false end.
Definition is_save (e : event) : bool :=
  match e with EvSave _ _ _ _ => true | _ => false end.
Definition is_close (e : event) : bool :=
  match e with EvClose _ _ => true | _ => false end.
Definition is_return (e : event) : bool :=
  match e with EvReturn _ _ => true | _ => false end.
Definition is_stream_call (e : event) : bool := is_open e || is_open_fail e.

(** The events of goroutine [i], in order. *)
Definition history (i : nat) (t : list event) : list event :=
  List.filter (fun e => Nat.eqb (ev_id e) i) t.

(** The first error handed to the group. *)
Fixpoint first_error (t : list event) : option error :=
  match t with
  | [] => None
  | EvReturn _ (Some e) :: _ => Some e
  | _ :: t' => first_error t'
  end.

(** How many goroutines stand at a position satisfying [p]. *)
Definition standing (p : position -> bool) (gs : list goroutine) : nat :=
  length (List.filter (fun g => p (pc g)) gs).

Definition at_started (p : position) : bool := match p with Started => true | _ => false end.
Definition at_opened (p : position) : bool := match p with Opened _ => true | _ => false end.
Definition at_saved (p : position) : bool := match p with Saved _ _ => true | _ => false end.
Definition at_returned (p : position) : bool :=
  match p with Returned _ => true | _ => false end.
Definition at_done (p : position) : bool := match p with Done => true | _ => false end.

(** Steps a goroutine at this position still has to take. *)
Definition remaining (p : position) : nat :=
  match p with
  | Started => 4 | Opened _ => 3 | Saved _ _ => 2 | Returned _ => 1 | Done => 0
  end.

(** An upper bound on the steps left in a state. *)
Definition fuel (s : State) : nat :=
  5 * length (todo s) + list_sum (map (fun g => remaining (pc g)) (goroutines s)).

(** The [Stream] calls made from scheduler step [k] on. *)
Definition stream_calls_from (storageClient : StorageClient) (location : string)
    (k : nat) (sched : list action) (s : State) : option nat :=
  match run storageClient location (take k sched) s with
  | Some s1 =>
      match run storageClient location (drop k sched) s1 with
      | Some s2 =>
          Some (count is_stream_call (trace s2) - count is_stream_call (trace s1))
      | None => None
      end
  | None => None
  end.

(** *** What holds in every state of a run *)

Definition saved_object (g : goroutine) (reader : Reader) : StorageObject :=
  mkStorageObject reader (ResourceId (restRequest g)).

(** The calls goroutine [i] has made when it stands at its position. *)
Definition calls_at (location : string) (i : nat) (g : goroutine)
    (h : list event) : Prop :=
  match pc g with
  | Started => h = []
  | Opened reader => h = [EvOpen i reader]
  | Saved reader err =>
      h = [EvOpen i reader; EvSave i location (saved_object g reader) err]
  | Returned err =>
      (exists e, err = Some e /\ h = [EvOpenFail i e])
      \/ (exists reader,
             h = [EvOpen i reader; EvSave i location (saved_object g reader) err;
                  EvClose i reader])
  | Done =>
      (exists e, h = [EvOpenFail i e; EvReturn i (Some e)])
      \/ (exists reader err,
             h = [EvOpen i reader; EvSave i location (saved_object g reader) err;
                  EvClose i reader; EvReturn i err])
  end.

Record consistent (location : string) (requests : list (LogsRequest Request))
    (s : State) : Prop := mkConsistent {
  cons_requests : map restRequest (goroutines s) ++ todo s = requests;
  cons_err : eg_err s = first_error (trace s);
  cons_stream :
    count is_open (trace s) + count is_open_fail (trace s)
    + standing at_started (goroutines s) = length (goroutines s);
  cons_open :
    count is_open (trace s)
    = standing at_opened (goroutines s) + count is_save (trace s);
  cons_save :
    count is_save (trace s)
    = standing at_saved (goroutines s) + count is_close (trace s);
  cons_close :
    count is_close (trace s) + count is_open_fail (trace s)
    = standing at_returned (goroutines s) + count is_return (trace s);
  cons_return : count is_return (trace s) = standing at_done (goroutines s);
  cons_history :
    forall i,
      match goroutines s !! i with
      | Some g => calls_at location i g (history i (trace s))
      | None => history i (trace s) = []
      end
}.

(** *** The calls behind a trace *)

(** The event [ev] is a call made on the world [w] that returned what the
    event records and left the world [w']: a [Stream] call on the request of
    that index, a [Save] call on the storage client, a [Close] call on the
    reader.  A closure handing its result to the group touches nothing. *)
Definition call (storageClient : StorageClient)
    (requests : list (LogsRequest Request)) (ev : event) (w w' : World) : Prop :=
  match ev with
  | EvOpen i reader =>
      exists request,
        requests !! i = Some request
        /\ Stream (LRequest request) w = (inl reader, w')
  | EvOpenFail i err =>
      exists request,
        requests !! i = Some request
        /\ Stream (LRequest request) w = (inr err, w')
  | EvSave i location obj err => Save storageClient location obj w = (err, w')
  | EvClose i reader => w' = Close reader w
  | EvReturn i err => w' = w
  end.

(** The events of [t] are calls made one after the other, the first on
    [w], each on the world the one before left, the last leaving [w']. *)
Fixpoint performed (storageClient : StorageClient)
    (requests : list (LogsRequest Request)) (t : list event) (w w' : World)
    : Prop :=
  match t with
  | [] => w' = w
  | ev :: t' =>
      exists w1, call storageClient requests ev w w1
                 /\ performed storageClient requests t' w1 w'
  end.

End Archiver.

Arguments Save {Reader World} _ _ _ _.
Arguments mkStorageClient {Reader World} _.
Arguments mkStorageObject {Reader} _ _.
Arguments Resource {Reader} _.
Arguments ObjName {Reader} _.
Arguments Started {Reader}.
Arguments Opened {Reader} _.
Arguments Saved {Reader} _ _.
Arguments Returned {Reader} _.
Arguments Done {Reader}.
Arguments pc {Request Reader} _.
Arguments restRequest {Request Reader} _.
Arguments mkGoroutine {Request Reader} _ _.
Arguments EvOpen {Reader} _ _.
Arguments EvOpenFail {Reader} _ _.
Arguments EvSave {Reader} _ _ _ _.
Arguments EvClose {Reader} _ _.
Arguments EvReturn {Reader} _ _.
Arguments ev_id {Reader} _.
Arguments world {Request Reader World} _.
Arguments todo {Request Reader World} _.
Arguments goroutines {Request Reader World} _.
Arguments eg_err {Request Reader World} _.
Arguments trace {Request Reader World} _.
Arguments mkState {Request Reader World} _ _ _ _ _.
Arguments init {Request Reader World} _ _.
Arguments step {Request Reader World} _ _ _ _ _ _ _.
Arguments run {Request Reader World} _ _ _ _ _ _ _.
Arguments Wait {Request Reader World} _.
Arguments SaveLogs {Request Reader World} _ _ _ _ _ _ _ _.
Arguments count {Reader} _ _.
Arguments is_open {Reader} _.
Arguments is_open_fail {Reader} _.
Arguments is_save {Reader} _.
Arguments is_close {Reader} _.
Arguments is_return {Reader} _.
Arguments is_stream_call {Reader} _.
Arguments history {Reader} _ _.
Arguments first_error {Reader} _.
Arguments standing {Request Reader} _ _.
Arguments at_started {Reader} _.
Arguments at_opened {Reader} _.
Arguments at_saved {Reader} _.
Arguments at_returned {Reader} _.
Arguments at_done {Reader} _.
Arguments remaining {Reader} _.
Arguments is_done {Request Reader} _.
Arguments fuel {Request Reader World} _.
Arguments advance {Request Reader World} _ _ _ _ _ _.
Arguments stream_calls_from {Request Reader World} _ _ _ _ _ _ _ _.
Arguments saved_object {Request Reader} _ _ _.
Arguments calls_at {Request Reader} _ _ _ _ _.
Arguments consistent {Request Reader World} _ _ _ _.
Arguments call {Request Reader World} _ _ _ _ _ _ _.
Arguments performed {Request Reader World} _ _ _ _ _ _ _.

(** ** A small cluster to run the definitions on

    Two pods as in the spec's scenario: pod A with containers web and
    sidecar, pod B with container web and init container migrate.  The
    client records what [GetLogs] is called with; the sidecar's stream fails
    to open; the storage keeps the names it is asked to save. *)

Module Demo.

Definition Request : Type := string * string * PodLogOptions.

Definition clientset : CoreV1Interface Request :=
  mkCoreV1 Request (fun namespace name opts => (namespace, name, opts)).

Definition podA : Pod :=
  mkPod (mkObjectMeta "A" "default" ∅)
        (mkPodSpec [mkContainer "web"; mkContainer "sidecar"] []).

Definition podB : Pod :=
  mkPod (mkObjectMeta "B" "default" ∅)
        (mkPodSpec [mkContainer "web"] [mkContainer "migrate"]).

(** A finder over two resource sets: [true] resolves to the two pods,
    [false] cannot be resolved. *)
Definition finder : PodFinder bool :=
  mkPodFinder bool (fun resources =>
    if resources then ([mkPodList [podA; podB]], None)
    else ([], Some "no pods found")).

Definition lrb : LogRequestBuilder Request bool :=
  NewLogRequestBuilder Request bool clientset finder.

Definition Reader : Type := string.
Definition World : Type := list string.

Definition Stream (r : Request) (w : World) : (Reader + error) * World :=
  if String.eqb (Container (snd r)) "sidecar"
  then (inr "transport error", w)
  else (inl (Container (snd r)), w).

Definition Close (r : Reader) (w : World) : World := w.

(** A stand-in for the identifier method, enough to tell the saved
    objects apart here. *)
Definition ResourceId (lr : LogsRequest Request) : string := ContainerName lr.

Definition storage : StorageClient Reader World :=
  mkStorageClient (fun location obj w => (None, w ++ [ObjName obj])).

Definition requests : list (LogsRequest Request) :=
  Eval vm_compute in buildLogsRequest lrb podA [] ++ buildLogsRequest lrb podB [].

(** One scheduler among many: start everything, then let the goroutines
    take turns. *)
Definition sched : list action :=
  [Go; Go; Run 1; Go; Run 0; Run 2; Go; Run 3; Run 1; Run 0; Run 3; Run 2;
   Run 0; Run 2; Run 3; Run 0; Run 3; Run 2].

Definition save (sched : list action)
    (requests : list (LogsRequest Request)) : option (option error * State Request Reader World) :=
  SaveLogs Stream Close ResourceId storage "/tmp/logs" requests [] sched.

(** The state that run leaves. *)
Definition final : State Request Reader World :=
  Eval vm_compute in
    match save sched requests with
    | Some (_, s) => s
    | None => init [] []
    end.

(** The requests of pod B alone, run one goroutine after the other. *)
Definition one : list (LogsRequest Request) :=
  Eval vm_compute in buildLogsRequest lrb podB [].

Definition sched1 : list action :=
  [Go; Go; Run 0; Run 0; Run 0; Run 0; Run 1; Run 1; Run 1; Run 1].

(** The first nine steps of [sched], after which the group holds the
    sidecar's error, and the rest. *)
Definition sched_a : list action :=
  [Go; Go; Run 1; Go; Run 0; Run 2; Go; Run 3; Run 1].

Definition sched_b : list action :=
  [Run 0; Run 3; Run 2; Run 0; Run 2; Run 3; Run 0; Run 3; Run 2].

Definition middle : State Request Reader World :=
  Eval vm_compute in
    match run Stream Close ResourceId storage "/tmp/logs" sched_a (init requests [])
    with
    | Some s => s
    | None => init [] []
    end.

(** The one request of pod B's init container. *)
Definition migrate : LogsRequest Request :=
  Eval vm_compute in
    NewLogsRequest (PodObjectMeta podB) "migrate"
                   (GetLogs clientset "default" "B"
                            (set_Container "migrate" emptyPodLogOptions)).

Definition final_migrate : State Request Reader World :=
  Eval vm_compute in
    match save [Go; Run 0; Run 0; Run 0; Run 0] [migrate] with
    | Some (_, s) => s
    | None => init [] []
    end.

(** The manifests are the resource sets themselves. *)
Definition ResourceList (manifests : bool) : bool * option error :=
  (manifests, None).

End Demo.

(** A test double for the same requests: the world counts the streams
    opened, the objects saved and the streams closed. *)
Module Double.

Record World : Type := mkWorld {
  opened : nat;
  saved : nat;
  closed : nat
}.

Definition Stream (r : Demo.Request) (w : World)
    : (Demo.Reader + error) * World :=
  if String.eqb (Container (snd r)) "sidecar"
  then (inr "transport error", w)
  else (inl (Container (snd r)), mkWorld (S (opened w)) (saved w) (closed w)).

Definition Close (r : Demo.Reader) (w : World) : World :=
  mkWorld (opened w) (saved w) (S (closed w)).

Definition storage : StorageClient Demo.Reader World :=
  mkStorageClient (fun location obj w =>
                     (None, mkWorld (opened w) (S (saved w)) (closed w))).

Definition final : State Demo.Request Demo.Reader World :=
  Eval vm_compute in
    match SaveLogs Stream Close Demo.ResourceId storage "/tmp/logs"
                   Demo.requests (mkWorld 0 0 0) Demo.sched with
    | Some (_, s) => s
    | None => init [] (mkWorld 0 0 0)
    end.

End Double.

(** ** The collector's entry points (logs.go, lines 39-49) *)

Section Collector.

Variable Request : Type.
Variable UnstructuredResources : Type.

(** [helmchart.Manifests] and its method [ResourceList()], which returns
    Go's pair of the resources and an error. *)
Variable Manifests : Type.
Variable ResourceList : Manifests -> UnstructuredResources * option error.

Definition GetLogRequestsFromManifest
    (lc : logCollector Request UnstructuredResources) (manifests : Manifests)
    : list (LogsRequest Request) * option error :=
  let '(resources, err) := ResourceList manifests in
  match err with
  | Some e => ([], Some e)
  | None => LogsFromUnstructured (logRequestBuilder _ _ lc) resources []
  end.

End Collector.

Arguments GetLogRequestsFromManifest {Request UnstructuredResources Manifests} _ _ _.

(** ** changelogutils: the version proposed by the changelog directory

    [GetProposedTagLocal] reads the sub-directories of
    [<parent>/changelog] and returns the one whose name is a version greater
    than the latest tag.  The directory listing, the path join and the two
    helpers of [versionutils] are parameters. *)

(** [os.FileInfo], by the two methods the loop calls. *)
Record FileInfo : Type := mkFileInfo {
  FName : string;
  IsDir : bool
}.

Definition ChangelogDirectory : string := "changelog".

Section Changelog.

(** [filepath.Join] of two elements. *)
Variable Join : string -> string -> string.

(** [ioutil.ReadDir], [versionutils.MatchesRegex] and
    [versionutils.IsGreaterThanTag(greater, lesser)], with Go's result
    pairs. *)
Variable ReadDir : string -> list FileInfo * option error.
Variable MatchesRegex : string -> bool.
Variable IsGreaterThanTag : string -> string -> bool * option error.

(** The loop of lines 58-75 from the state [proposedVersion]: the
    proposed version it ends with, or the error of its first early
    return. *)
Fixpoint scan_subDirs (latestTag : string) (subDirs : list FileInfo)
    (proposedVersion : string) : string * option error :=
  match subDirs with
  | [] => (proposedVersion, None)
  | subDir :: rest =>
      if negb (IsDir subDir) then
        ("", Some ("Unexpected entry " ++ FName subDir ++ " in changelog directory")%string)
      else if negb (MatchesRegex (FName subDir)) then
        ("", Some ("Directory name " ++ FName subDir
                   ++ " is not valid, must be of the form 'vX.Y.Z'")%string)
      else
        let '(greaterThan, err) := IsGreaterThanTag (FName subDir) latestTag in
        match err with
        | Some e => ("", Some e)
        | None =>
            if greaterThan then
              if negb (String.eqb proposedVersion "") then
                ("", Some ("Versions " ++ FName subDir ++ " and " ++ proposedVersion
                           ++ " are both greater than latest tag")%string)
              else scan_subDirs latestTag rest (FName subDir)
            else scan_subDirs latestTag rest proposedVersion
        end
  end.

(** [errors.Wrapf(err, msg)] reads [msg: err]. *)
Definition GetProposedTagLocal (latestTag changelogParentPath : string)
    : string * option error :=
  let changelogPath := Join changelogParentPath ChangelogDirectory in
  let '(subDirs, err) := ReadDir changelogPath in
  match err with
  | Some e => ("", Some ("Error reading changelog directory" ++ ": " ++ e)%string)
  | None =>
      match scan_subDirs latestTag subDirs "" with
      | (_, Some e) => ("", Some e)
      | (proposedVersion, None) =>
          if String.eqb proposedVersion "" then
            ("", Some ("No version greater than " ++ latestTag ++ " found")%string)
          else (proposedVersion, None)
      end
  end.

(** An entry the loop passes over without returning: a directory with a
    version name that compares with the latest tag. *)
Definition entry_ok (latestTag : string) (subDir : FileInfo) : bool :=
  IsDir subDir && MatchesRegex (FName subDir)
  && match snd (IsGreaterThanTag (FName subDir) latestTag) with
     | None => true
     | Some _ => false
     end.

(** The names that are greater than the latest tag, in directory order. *)
Definition greater_names (latestTag : string) (subDirs : list FileInfo)
    : list string :=
  List.filter (fun name => fst (IsGreaterThanTag name latestTag))
              (map FName subDirs).

End Changelog.

(** A changelog directory to run the definitions on: version names start
    with v, and a version is greater when it comes later in the
    alphabet. *)
Module DemoChangelog.

Definition Join (a b : string) : string := (a ++ "/" ++ b)%string.

Definition MatchesRegex (name : string) : bool := String.prefix "v" name.

Definition IsGreaterThanTag (greater lesser : string) : bool * option error :=
  (String.ltb lesser greater, None).

Definition ReadDir (path : string) : list FileInfo * option error :=
  if String.eqb path "repo/changelog" then
    ([mkFileInfo "v0.1.0" true; mkFileInfo "v0.2.0" true; mkFileInfo "v0.3.0" true],
     None)
  else if String.eqb path "empty/changelog" then ([], None)
  else ([], Some "no such directory").

End DemoChangelog.

(** ** gcloudutils: cloud build events (cloudsub.go)

    What the logger is handed is kept as a list of entries; a context is the
    list of logger fields [contextutils.WithLoggerValues] has put in it, and
    every entry logged under a context carries them. *)

Inductive Level : Type := DebugLevel | InfoLevel | ErrorLevel.

Section CloudBuildEvents.

(** [*github.Client], [cloudbuild.Build] with the fields the file reads,
    and the world the handlers act on. *)
Variable Client : Type.
Variable Build : Type.
Variable Id : Build -> string.
Variable ProjectId : Build -> string.
Variable Tags : Build -> list string.
Variable World : Type.

(** A logger field: [zap.String], [zap.Error] or [zap.Any] of a build. *)
Inductive Field : Type :=
| FString (key value : string)
| FError (err : error)
| FAny (key : string) (build : Build).

Record LogEntry : Type := mkLogEntry {
  level : Level;
  message : string;
  fields : list Field
}.

Definition Context : Type := list Field.

(** [contextutils.LoggerFrom(ctx).Errorw(msg, fields...)] and the like. *)
Definition logw (ctx : Context) (l : Level) (msg : string) (fs : list Field)
    : LogEntry :=
  mkLogEntry l msg (ctx ++ fs).

(** The [CloudBuildEventHandler] interface:
    [CloudBuild(ctx, client, build) error]. *)
Variable Handler : Type.
Variable CloudBuild : Handler -> Context -> Client -> Build -> World -> option error * World.

(** [HandleFailedSourceBuild(ctx, build) error], declared outside
    cloudsub.go. *)
Variable HandleFailedSourceBuild : Context -> Build -> World -> option error * World.

(** [CloudBuildRegistry], by the field cloudsub.go ranges over. *)
Record CloudBuildRegistry : Type := mkRegistry {
  eventHandlers : list Handler
}.

(** Where the closure of lines 132-136 stands. *)
Inductive hposition : Type :=
| HStarted
| HCalled (err : option error)
| HDone.

Record hroutine : Type := mkHroutine {
  eventHandler : Handler;
  hpc : hposition
}.

Inductive hevent : Type :=
| HvCloudBuild (i : nat) (handler : Handler) (ctx : Context) (client : Client)
               (build : Build) (err : option error)
| HvLog (i : nat) (entry : LogEntry).

Definition hev_id (e : hevent) : nat :=
  match e with HvCloudBuild i _ _ _ _ _ | HvLog i _ => i end.

(** The state of a dispatch: the variables the closures share ([ctx],
    [client], [build]), what the loop of line 130 has yet to visit, and the
    goroutines started so far. *)
Record HState : Type := mkHState {
  hworld : World;
  hctx : Context;
  hclient : Client;
  hbuild : Build;
  htodo : list Handler;
  hroutines : list hroutine;
  htrace : list hevent
}.

(** [HandleCloudBuildEvent] up to its loop: the state in which the loop
    starts, with nothing to visit when [HandleFailedSourceBuild] returned an
    error. *)
Definition HandleCloudBuildEvent (ctx : Context) (registry : CloudBuildRegistry)
    (client : Client) (build : Build) (w : World) : HState :=
  let ctx := ctx ++ [FString "trigger" "cloud-build"; FString "build_id" (Id build)] in
  match HandleFailedSourceBuild ctx build w with
  | (Some _, w') => mkHState w' ctx client build [] [] []
  | (None, w') => mkHState w' ctx client build (eventHandlers registry) [] []
  end.

Definition hmove (s : HState) (i : nat) (g : hroutine) (p : hposition)
    (w : World) (evs : list hevent) : HState :=
  mkHState w (hctx s) (hclient s) (hbuild s) (htodo s)
           (<[i := mkHroutine (eventHandler g) p]> (hroutines s))
           (htrace s ++ evs).

(** One step of the loop ([Go]: the next [go func()]) or of a started
    goroutine ([Run i]). *)
Definition hstep (a : action) (s : HState) : option HState :=
  match a with
  | Go =>
      match htodo s with
      | [] => None
      | handler :: rest =>
          Some (mkHState (hworld s) (hctx s) (hclient s) (hbuild s) rest
                         (hroutines s ++ [mkHroutine handler HStarted]) (htrace s))
      end
  | Run i =>
      match hroutines s !! i with
      | None => None
      | Some g =>
          match hpc g with
          | HStarted =>
              let '(err, w) :=
                CloudBuild (eventHandler g) (hctx s) (hclient s) (hbuild s) (hworld s) in
              Some (hmove s i g (HCalled err) w
                          [HvCloudBuild i (eventHandler g) (hctx s) (hclient s)
                                        (hbuild s) err])
          | HCalled (Some err) =>
              Some (hmove s i g HDone (hworld s)
                          [HvLog i (logw (hctx s) ErrorLevel "error handling build"
                                         [FString "build_id" (Id (hbuild s));
                                          FError err])])
          | HCalled None => Some (hmove s i g HDone (hworld s) [])
          | HDone => None
          end
      end
  end.

Fixpoint hrun (sched : list action) (s : HState) : option HState :=
  match sched with
  | [] => Some s
  | a :: sched' =>
      match hstep a s with
      | Some s' => hrun sched' s'
      | None => None
      end
  end.

Definition hdone (g : hroutine) : bool :=
  match hpc g with HDone => true | _ => false end.

(** Nothing is left to do: the loop is over and every closure has
    returned. *)
Definition quiescent (s : HState) : bool :=
  match htodo s with
  | [] => forallb hdone (hroutines s)
  | _ :: _ => false
  end.

Definition hhistory (i : nat) (t : list hevent) : list hevent :=
  List.filter (fun e => Nat.eqb (hev_id e) i) t.

Definition hremaining (p : hposition) : nat :=
  match p with HStarted => 2 | HCalled _ => 1 | HDone => 0 end.

Definition hfuel (s : HState) : nat :=
  3 * length (htodo s) + list_sum (map (fun g => hremaining (hpc g)) (hroutines s)).

(** The events goroutine [i] has left when it stands at its position. *)
Definition hcalls_at (s : HState) (i : nat) (g : hroutine) (h : list hevent)
    : Prop :=
  let call err :=
    HvCloudBuild i (eventHandler g) (hctx s) (hclient s) (hbuild s) err in
  let entry err :=
    HvLog i (logw (hctx s) ErrorLevel "error handling build"
                  [FString "build_id" (Id (hbuild s)); FError err]) in
  match hpc g with
  | HStarted => h = []
  | HCalled err => h = [call err]
  | HDone => h = [call None] \/ exists err, h = [call (Some err); entry err]
  end.

Record hconsistent (handlers : list Handler) (s : HState) : Prop := mkHConsistent {
  hcons_handlers : map eventHandler (hroutines s) ++ htodo s = handlers;
  hcons_history :
    forall i,
      match hroutines s !! i with
      | Some g => hcalls_at s i g (hhistory i (htrace s))
      | None => hhistory i (htrace s) = []
      end
}.

(** *** One message (lines 87-121) *)

(** [json.Unmarshal] into a build, [Tags.GetInstallationId] and the
    client creator's [NewInstallationClient]. *)
Variable Unmarshal : string -> Build + error.
Variable GetInstallationId : list string -> Z.
Variable ClientCreator : Type.
Variable NewInstallationClient : ClientCreator -> Z -> World -> (Client + error) * World.

(** [CloudSubscriber], by the fields [handleCloudBuildEvent] reads;
    [cfgInstallationId] is [int64(cs.cfg.AppConfig.InstallationId)]. *)
Record CloudSubscriberCore : Type := mkSubscriberCore {
  githubClientCreator : ClientCreator;
  cfgInstallationId : Z;
  registry : CloudBuildRegistry
}.

(** The entries logged, and either the world after an early return or the
    state in which the handlers are dispatched. *)
Definition handleCloudBuildEvent (cs : CloudSubscriberCore) (ctx : Context)
    (data : string) (w : World) : list LogEntry * (World + HState) :=
  if String.eqb data "" then
    ([logw ctx ErrorLevel "empty data field found" []], inl w)
  else
    match Unmarshal data with
    | inr err =>
        ([logw ctx ErrorLevel "unable to wrangle message into cloudbuild message"
               [FError err]], inl w)
    | inl cbm =>
        let log1 := [logw ctx DebugLevel "unmarshaled build" [FAny "build" cbm]] in
        let ctx := ctx ++ [FString "project-id" (ProjectId cbm);
                           FString "build-id" (Id cbm)] in
        let instId := GetInstallationId (Tags cbm) in
        let '(log2, instId) :=
          if Z.eqb instId 0 then
            ([logw ctx InfoLevel "Build does not contain installation id" []],
             cfgInstallationId cs)
          else ([], instId) in
        match NewInstallationClient (githubClientCreator cs) instId w with
        | (inr err, w') =>
            (log1 ++ log2
             ++ [logw ctx ErrorLevel "error getting github client from installation id"
                      [FError err]], inl w')
        | (inl githubClient, w') =>
            (log1 ++ log2,
             inr (HandleCloudBuildEvent ctx (registry cs) githubClient cbm w'))
        end
    end.

End CloudBuildEvents.

Arguments FString {Build} _ _.
Arguments FError {Build} _.
Arguments FAny {Build} _ _.
Arguments mkLogEntry {Build} _ _ _.
Arguments level {Build} _.
Arguments message {Build} _.
Arguments fields {Build} _.
Arguments logw {Build} _ _ _ _.
Arguments mkRegistry {Handler} _.
Arguments eventHandlers {Handler} _.
Arguments mkHroutine {Handler} _ _.
Arguments eventHandler {Handler} _.
Arguments hpc {Handler} _.
Arguments HvCloudBuild {Client Build Handler} _ _ _ _ _ _.
Arguments HvLog {Client Build Handler} _ _.
Arguments hev_id {Client Build Handler} _.
Arguments mkHState {Client Build World Handler} _ _ _ _ _ _ _.
Arguments hworld {Client Build World Handler} _.
Arguments hctx {Client Build World Handler} _.
Arguments hclient {Client Build World Handler} _.
Arguments hbuild {Client Build World Handler} _.
Arguments htodo {Client Build World Handler} _.
Arguments hroutines {Client Build World Handler} _.
Arguments htrace {Client Build World Handler} _.
Arguments HandleCloudBuildEvent {Client Build} _ {World Handler} _ _ _ _ _ _.
Arguments hstep {Client Build} _ {World Handler} _ _ _.
Arguments hrun {Client Build} _ {World Handler} _ _ _.
Arguments hdone {Handler} _.
Arguments quiescent {Client Build World Handler} _.
Arguments hhistory {Client Build Handler} _ _.
Arguments hfuel {Client Build World Handler} _.
Arguments hcalls_at {Client Build} _ {World Handler} _ _ _ _.
Arguments hconsistent {Client Build} _ {World Handler} _ _.
Arguments hmove {Client Build World Handler} _ _ _ _ _ _.
Arguments handleCloudBuildEvent
  {Client Build} _ _ _ {World Handler} _ _ _ {ClientCreator} _ _ _ _ _.
Arguments mkSubscriberCore {Handler ClientCreator} _ _ _.
Arguments githubClientCreator {Handler ClientCreator} _.
Arguments cfgInstallationId {Handler ClientCreator} _.
Arguments registry {Handler ClientCreator} _.

(** *** Setting up the subscriber (lines 20-68) *)

Definition TOPIC : string := "cloud-builds".

Definition alreadyExistsError : string :=
  "Resource already exists in the project (resource=solobot).".

Section Subscriber.

(** The handles of the cloud libraries, opaque here, and the world their
    calls act on. *)
Variable Build : Type.
Variable World : Type.
Variable Handler : Type.
Variable ClientCreator : Type.
Variable BuildService : Type.
Variable PubsubClient : Type.
Variable PubsubTopic : Type.
Variable PubsubSubscription : Type.
Variable BotConfig : Type.
Variable Status : Type.

(** [NewCloudBuildClient(ctx, projectId)] and [NewPubSubClient(ctx,
    projectId)], with Go's result pairs. *)
Variable NewCloudBuildClient : string -> World -> (BuildService * option error) * World.
Variable NewPubSubClient : string -> World -> (PubsubClient * option error) * World.

(** [pubsubClient.Topic(id)], [pubsubClient.Subscription(id)] and
    [pubsubClient.CreateSubscription(ctx, id, SubscriptionConfig{Topic: t})]. *)
Variable Topic : PubsubClient -> string -> PubsubTopic.
Variable Subscription : PubsubClient -> string -> PubsubSubscription.
Variable CreateSubscription :
  PubsubClient -> string -> PubsubTopic -> World
  -> (PubsubSubscription * option error) * World.

(** [status.FromError(err)] and the status's [Message()]. *)
Variable FromError : error -> Status * bool.
Variable Message : Status -> string.

Record CloudSubscriber : Type := mkCloudSubscriber {
  cs_githubClientCreator : ClientCreator;
  cs_buildService : BuildService;
  cs_pubsubClient : PubsubClient;
  cs_cloudBuildSub : PubsubSubscription;
  cs_cfg : BotConfig;
  cs_registry : CloudBuildRegistry Handler
}.

(** The subscriber (nil on an error), the error, the entries logged and
    the world the calls leave. *)
Definition NewCloudSubscriber (ctx : Context Build) (cfg : BotConfig)
    (githubClientCreator : ClientCreator) (projectId subscriptionId : string)
    (w : World)
    : option CloudSubscriber * option error * list (LogEntry Build) * World :=
  let '((buildService, _), w) := NewCloudBuildClient projectId w in
  let log1 :=
    [logw ctx InfoLevel "successfully created build service for pubsub"
          [FString "projectId" projectId]] in
  let '((pubsubClient, err), w) := NewPubSubClient projectId w in
  match err with
  | Some e => (None, Some e, log1, w)
  | None =>
      let '((cloudBuildSub, err), w) :=
        CreateSubscription pubsubClient subscriptionId (Topic pubsubClient TOPIC) w in
      let created :=
        match err with
        | Some e =>
            let '(grpcErr, ok) := FromError e in
            if ok && negb (String.eqb (Message grpcErr) alreadyExistsError)
            then inr e
            else inl (Subscription pubsubClient subscriptionId)
        | None => inl cloudBuildSub
        end in
      match created with
      | inr e => (None, Some e, log1, w)
      | inl cloudBuildSub =>
          (Some (mkCloudSubscriber githubClientCreator buildService pubsubClient
                                   cloudBuildSub cfg (mkRegistry [])),
           None,
           log1 ++ [logw ctx InfoLevel "successfully setup pubsub" []],
           w)
      end
  end.

End Subscriber.

Arguments mkCloudSubscriber
  {Handler ClientCreator BuildService PubsubClient PubsubSubscription BotConfig}
  _ _ _ _ _ _.
Arguments cs_buildService
  {Handler ClientCreator BuildService PubsubClient PubsubSubscription BotConfig} _.
Arguments cs_cloudBuildSub
  {Handler ClientCreator BuildService PubsubClient PubsubSubscription BotConfig} _.
Arguments cs_registry
  {Handler ClientCreator BuildService PubsubClient PubsubSubscription BotConfig} _.

(** Three handlers to run the definitions on: a handler is a number, a
    build is its id, the world counts the calls, and handler 1 fails. *)
Module DemoCloud.

Definition CloudBuild (handler : nat) (ctx : Context string) (client : string)
    (build : string) (w : nat) : option error * nat :=
  (if Nat.eqb handler 1 then Some "handler failed" else None, S w).

Definition HandleFailedSourceBuild (ctx : Context string) (build : string)
    (w : nat) : option error * nat :=
  (if String.eqb build "failed-source" then Some "source fetch failed" else None, w).

Definition Unmarshal (data : string) : string + error :=
  if String.eqb data "{" then inr "unexpected end of JSON input" else inl data.

Definition GetInstallationId (tags : list string) : Z :=
  match tags with [] => 0%Z | _ :: _ => 7%Z end.

Definition NewInstallationClient (creator : unit) (instId : Z) (w : nat)
    : (string + error) * nat :=
  if Z.eqb instId 0 then (inr "no such installation", w)
  else (inl "client", w).

Definition cs : CloudSubscriberCore nat unit :=
  mkSubscriberCore tt 42%Z (mkRegistry [0; 1; 2]).

Definition start : HState string string nat nat :=
  HandleCloudBuildEvent (fun b => b) HandleFailedSourceBuild []
                        (mkRegistry [0; 1; 2]) "client" "build-1" 0.

Definition sched : list action :=
  [Go; Go; Run 1; Go; Run 0; Run 2; Run 1; Run 2; Run 0].

Definition final : HState string string nat nat :=
  Eval vm_compute in
    match hrun (fun b => b) CloudBuild sched start with
    | Some s => s
    | None => start
    end.

(** Cloud libraries for the set-up: the project "down" has no build
    service, the subscription "taken" exists already, the subscription
    "denied" cannot be created; the world counts the calls. *)
Definition NewCloudBuildClient (projectId : string) (w : nat)
    : (string * option error) * nat :=
  if String.eqb projectId "down" then (("", Some "build service unavailable"), S w)
  else (("build-service", None), S w).

Definition NewPubSubClient (projectId : string) (w : nat)
    : (string * option error) * nat :=
  (("pubsub", None), S w).

Definition CreateSubscription (client id topic : string) (w : nat)
    : (string * option error) * nat :=
  if String.eqb id "taken" then (("", Some alreadyExistsError), S w)
  else if String.eqb id "denied" then (("", Some "permission denied"), S w)
  else ((id, None), S w).

Definition FromError (e : error) : string * bool := (e, true).

End DemoCloud.

(** ** The request builder *)

Section BuilderFacts.

Context {Request UnstructuredResources : Type}.
Implicit Types (lrb : LogRequestBuilder Request UnstructuredResources).
Implicit Types (pod : Pod) (opts : PodLogOptions).
Implicit Types (optsFunc : list (option LogRequestOptions)).

Lemma request_for_set_Container lrb pod c opts v :
  request_for lrb pod (set_Container c opts) v = request_for lrb pod opts v.
Proof. reflexivity. Qed.

(** A loop over containers appends one request per container, in order;
    the [Container] field it leaves behind is overwritten before any
    later use. *)
Lemma container_loop_requests lrb pod cs opts result :
  exists c,
    container_loop lrb pod cs (opts, result)
    = (match cs with [] => opts | _ :: _ => set_Container c opts end,
       result ++ map (request_for lrb pod opts) cs).
Proof.
  revert opts result.
  induction cs as [|v cs IH]; intros opts result.
  - exists "". simpl. by rewrite app_nil_r.
  - unfold container_loop in *. simpl foldl.
    destruct (IH (set_Container (CName v) opts)
                 (result ++ [request_for lrb pod opts v])) as [c Hc].
    unfold request_for in Hc at 1. rewrite Hc.
    exists (match cs with [] => CName v | _ :: _ => c end).
    f_equal.
    + by destruct cs.
    + by rewrite <- app_assoc.
Qed.

Lemma buildLogsRequest_requests lrb pod optsFunc :
  buildLogsRequest lrb pod optsFunc
  = map (request_for lrb pod (apply_opts optsFunc emptyPodLogOptions))
        (Containers (Spec pod) ++ InitContainers (Spec pod)).
Proof.
  unfold buildLogsRequest. cbv zeta.
  set (o := apply_opts optsFunc emptyPodLogOptions).
  destruct (container_loop_requests lrb pod (Containers (Spec pod)) o []) as [c ->].
  set (o1 := match Containers (Spec pod) with [] => o | _ :: _ => set_Container c o end).
  destruct (container_loop_requests lrb pod (InitContainers (Spec pod)) o1
              ([] ++ map (request_for lrb pod o) (Containers (Spec pod)))) as [c' ->].
  simpl. rewrite map_app. f_equal.
  apply map_ext. intros v. subst o1.
  destruct (Containers (Spec pod)); [done|]. apply request_for_set_Container.
Qed.

Lemma foldl_app_flat {A B : Type} (f : A -> list B) (l : list A) (acc : list B) :
  foldl (fun result v => result ++ f v) acc l = acc ++ concat (map f l).
Proof.
  revert acc. induction l as [|a l IH]; intros acc; simpl.
  - by rewrite app_nil_r.
  - rewrite IH. by rewrite app_assoc.
Qed.

Lemma RetrieveLogs_requests lrb pods optsFunc :
  RetrieveLogs lrb pods optsFunc
  = concat (map (fun v => buildLogsRequest lrb v []) (Items pods)).
Proof. unfold RetrieveLogs. by rewrite foldl_app_flat. Qed.

Lemma apply_opts_app optsFunc1 optsFunc2 opts :
  apply_opts (optsFunc1 ++ optsFunc2) opts
  = apply_opts optsFunc2 (apply_opts optsFunc1 opts).
Proof. unfold apply_opts. apply foldl_app. Qed.

Lemma apply_opts_non_nil optsFunc opts :
  apply_opts (non_nil optsFunc) opts = apply_opts optsFunc opts.
Proof.
  revert opts. induction optsFunc as [|[f|] l IH]; intros opts.
  - reflexivity.
  - apply (IH (f opts)).
  - apply (IH opts).
Qed.

(** C2: for a pod with c standard and i init containers, buildLogsRequest
    returns exactly c + i requests, one per container with that
    container's name, those of the standard containers first, in order,
    then those of the init containers; it has no error result, and a pod
    without containers yields the empty list. *)
Theorem buildLogsRequest_count_and_order lrb pod optsFunc :
  length (buildLogsRequest lrb pod optsFunc)
  = length (Containers (Spec pod)) + length (InitContainers (Spec pod))
  /\ map ContainerName (buildLogsRequest lrb pod optsFunc)
     = map CName (Containers (Spec pod)) ++ map CName (InitContainers (Spec pod))
  /\ take (length (Containers (Spec pod))) (buildLogsRequest lrb pod optsFunc)
     = map (request_for lrb pod (apply_opts optsFunc emptyPodLogOptions))
           (Containers (Spec pod))
  /\ drop (length (Containers (Spec pod))) (buildLogsRequest lrb pod optsFunc)
     = map (request_for lrb pod (apply_opts optsFunc emptyPodLogOptions))
           (InitContainers (Spec pod))
  /\ (forall meta, buildLogsRequest lrb (mkPod meta (mkPodSpec [] [])) optsFunc = []).
Proof.
  rewrite buildLogsRequest_requests, map_app.
  set (f := request_for lrb pod (apply_opts optsFunc emptyPodLogOptions)).
  assert (Hlen : length (map f (Containers (Spec pod)))
                 = length (Containers (Spec pod))) by apply length_map.
  repeat split.
  - by rewrite length_app, !length_map.
  - rewrite map_app, !map_map. reflexivity.
  - rewrite <- Hlen. by rewrite take_app_length.
  - rewrite <- Hlen. by rewrite drop_app_length.
Qed.

(** C3: LogsFromUnstructured returns the finder's error as it is; with an
    error the request list is empty (nil), without one the list holds the
    requests of every pod list the finder returned, in order. *)
Theorem LogsFromUnstructured_error_propagation lrb resources optsFunc pods err :
  GetPods (podFinder lrb) resources = (pods, err) ->
  LogsFromUnstructured lrb resources optsFunc
  = (match err with
     | Some _ => []
     | None => concat (map (fun v => RetrieveLogs lrb v optsFunc) pods)
     end, err).
Proof.
  intros H. unfold LogsFromUnstructured. rewrite H.
  destruct err as [e|]; [reflexivity|].
  by rewrite foldl_app_flat.
Qed.

(** C8: options are applied one after the other to one record.  LogsSince
    T followed by PreviousLogs leaves SinceTime = T and Previous = true and
    every other field as it was; applying a list of options is applying its
    first part and then the rest; of two LogsSince the later one wins;
    FollowLogs, PreviousLogs and LogsSince write different fields, so their
    order does not matter; and the requests buildLogsRequest builds from
    [LogsSince T; PreviousLogs] carry both settings. *)
Theorem options_compose_sequentially :
  (forall T opts,
      apply_opts [Some (LogsSince T); Some PreviousLogs] opts
      = mkPodLogOptions (Container opts) (Follow opts) true (SinceSeconds opts)
                        (Some T) (Timestamps opts) (TailLines opts)
                        (LimitBytes opts))
  /\ (forall optsFunc1 optsFunc2 opts,
        apply_opts (optsFunc1 ++ optsFunc2) opts
        = apply_opts optsFunc2 (apply_opts optsFunc1 opts))
  /\ (forall T1 T2 opts,
        SinceTime (apply_opts [Some (LogsSince T1); Some (LogsSince T2)] opts)
        = Some T2)
  /\ (forall T opts,
        PreviousLogs (LogsSince T opts) = LogsSince T (PreviousLogs opts)
        /\ FollowLogs (LogsSince T opts) = LogsSince T (FollowLogs opts)
        /\ FollowLogs (PreviousLogs opts) = PreviousLogs (FollowLogs opts))
  /\ (forall lrb pod T,
        buildLogsRequest lrb pod [Some (LogsSince T); Some PreviousLogs]
        = map (request_for lrb pod
                 (mkPodLogOptions "" false true None (Some T) false None None))
              (Containers (Spec pod) ++ InitContainers (Spec pod))).
Proof.
  repeat split.
  - intros. apply apply_opts_app.
  - intros. apply buildLogsRequest_requests.
Qed.

(** C10: buildLogsRequest skips the nil entries of its option list: it
    returns (it is a total function) and the requests are those it builds
    from the non-nil options alone. *)
Theorem buildLogsRequest_skips_nil lrb pod optsFunc :
  buildLogsRequest lrb pod optsFunc = buildLogsRequest lrb pod (non_nil optsFunc)
  /\ Forall is_Some (non_nil optsFunc)
  /\ (forall f, In (Some f) optsFunc <-> In (Some f) (non_nil optsFunc))
  /\ buildLogsRequest lrb pod (None :: optsFunc) = buildLogsRequest lrb pod optsFunc
  /\ buildLogsRequest lrb pod (optsFunc ++ [None]) = buildLogsRequest lrb pod optsFunc.
Proof.
  split; [|split; [|split; [|split]]].
  - rewrite !buildLogsRequest_requests. by rewrite apply_opts_non_nil.
  - unfold non_nil. apply Forall_fmap. apply Forall_forall. intros x _. by eexists.
  - intros f. unfold non_nil. induction optsFunc as [|[g|] l IH]; simpl.
    + tauto.
    + split; (intros [H|H]; [left; exact H | right; by apply IH]).
    + split.
      * intros [H|H]; [discriminate | by apply IH].
      * intros H. right. by apply IH.
  - reflexivity.
  - rewrite !buildLogsRequest_requests. by rewrite apply_opts_app.
Qed.

(** *** Further facts on request building *)

(** X1: every request buildLogsRequest returns carries the pod's metadata,
    and its stream specification is the one GetLogs makes for that pod's
    namespace and name from the applied options with the Container field
    set to the request's own container name. *)
Theorem buildLogsRequest_targets lrb pod optsFunc :
  Forall (fun r =>
            PodMeta r = PodObjectMeta pod
            /\ In (ContainerName r)
                  (map CName (Containers (Spec pod) ++ InitContainers (Spec pod)))
            /\ LRequest r
               = GetLogs (clientset lrb) (Namespace (PodObjectMeta pod))
                         (Name (PodObjectMeta pod))
                         (set_Container (ContainerName r)
                            (apply_opts optsFunc emptyPodLogOptions)))
         (buildLogsRequest lrb pod optsFunc).
Proof.
  rewrite buildLogsRequest_requests.
  apply Forall_forall. intros r Hr. apply list_elem_of_In in Hr.
  apply in_map_iff in Hr as (v & <- & Hv). simpl.
  repeat split. apply in_map_iff. by exists v.
Qed.

(** X2: the options decide every field of the stream specification but
    Container: two option lists whose records differ at most in the
    Container field give the same requests.  In particular an option that
    writes Container has no effect. *)
Theorem buildLogsRequest_container_not_an_option lrb pod optsFunc1 optsFunc2 :
  set_Container "" (apply_opts optsFunc1 emptyPodLogOptions)
  = set_Container "" (apply_opts optsFunc2 emptyPodLogOptions) ->
  buildLogsRequest lrb pod optsFunc1 = buildLogsRequest lrb pod optsFunc2.
Proof.
  intros H. rewrite !buildLogsRequest_requests.
  apply map_ext. intros v. unfold request_for. do 2 f_equal.
  change (set_Container (CName v)
            (set_Container "" (apply_opts optsFunc1 emptyPodLogOptions))
          = set_Container (CName v)
              (set_Container "" (apply_opts optsFunc2 emptyPodLogOptions))).
  by rewrite H.
Qed.

(** X3: RetrieveLogs lists the requests pod by pod in the order of the pod
    list, each pod's standard containers before its init containers; their
    number is the total number of containers; the requests of a concatenated
    pod list are the concatenated requests, so a pod listed twice has its
    requests twice. *)
Theorem RetrieveLogs_concatenates lrb optsFunc :
  (forall pods,
      map ContainerName (RetrieveLogs lrb pods optsFunc)
      = concat (map (fun pod =>
                       map CName (Containers (Spec pod))
                       ++ map CName (InitContainers (Spec pod)))
                    (Items pods)))
  /\ (forall pods,
        length (RetrieveLogs lrb pods optsFunc)
        = list_sum (map (fun pod => length (Containers (Spec pod))
                                    + length (InitContainers (Spec pod)))
                        (Items pods)))
  /\ (forall ps1 ps2,
        RetrieveLogs lrb (mkPodList (ps1 ++ ps2)) optsFunc
        = RetrieveLogs lrb (mkPodList ps1) optsFunc
          ++ RetrieveLogs lrb (mkPodList ps2) optsFunc).
Proof.
  split; [|split].
  - intros pods. rewrite RetrieveLogs_requests, concat_map, map_map.
    f_equal. apply map_ext. intros pod.
    by rewrite buildLogsRequest_requests, map_map, map_app.
  - intros pods. rewrite RetrieveLogs_requests, length_concat, map_map.
    f_equal. apply map_ext. intros pod.
    by rewrite buildLogsRequest_requests, length_map, length_app.
  - intros ps1 ps2. rewrite !RetrieveLogs_requests. simpl.
    by rewrite map_app, concat_app.
Qed.

End BuilderFacts.

(** ** The concurrent archiver *)

Section ArchiverFacts.

Context {Request Reader World : Type}.
Variable Stream : Request -> World -> (Reader + error) * World.
Variable Close : Reader -> World -> World.
Variable ResourceId : LogsRequest Request -> string.
Variable storageClient : StorageClient Reader World.
Variable location : string.

Local Abbreviation step' := (step Stream Close ResourceId storageClient location).
Local Abbreviation run' := (run Stream Close ResourceId storageClient location).
Local Abbreviation SaveLogs' := (SaveLogs Stream Close ResourceId storageClient location).
Local Abbreviation consistent' :=
  (@consistent Request Reader World ResourceId location).
Local Abbreviation call' := (call Stream Close storageClient).
Local Abbreviation performed' := (performed Stream Close storageClient).
Local Abbreviation goroutine' := (goroutine Request Reader).
Local Abbreviation State' := (State Request Reader World).
Local Abbreviation event' := (event Reader).

Implicit Types (s : State') (g : goroutine') (t : list event') (ev : event').
Implicit Types (gs : list goroutine') (sched : list action).

(** *** Counting in traces and in the list of goroutines *)

Lemma count_snoc (p : event' -> bool) t ev :
  count p (t ++ [ev]) = count p t + (if p ev then 1 else 0).
Proof.
  unfold count. rewrite List.filter_app, length_app. simpl.
  by destruct (p ev).
Qed.

Lemma history_snoc i t ev :
  history i (t ++ [ev])
  = history i t ++ (if Nat.eqb (ev_id ev) i then [ev] else []).
Proof. unfold history. by rewrite List.filter_app. Qed.

Lemma history_In i t ev : In ev t -> ev_id ev = i -> In ev (history i t).
Proof.
  intros Hin Hid. unfold history. apply List.filter_In. split; [done|].
  by apply Nat.eqb_eq.
Qed.

Lemma In_history i t ev : In ev (history i t) -> In ev t /\ ev_id ev = i.
Proof.
  unfold history. intros H. apply List.filter_In in H as [H1 H2].
  split; [done|]. by apply Nat.eqb_eq.
Qed.

Lemma first_error_snoc t ev :
  first_error (t ++ [ev])
  = match first_error t with Some e => Some e | None => first_error [ev] end.
Proof.
  induction t as [|ev' t IH]; simpl.
  - by destruct (first_error [ev]).
  - destruct ev' as [| | | |j [e|]]; auto.
Qed.

Lemma first_error_In t e :
  first_error t = Some e -> exists i, In (EvReturn i (Some e)) t.
Proof.
  induction t as [|ev t IH]; simpl; [done|].
  destruct ev as [| | | |j [e'|]]; simpl;
    try (intros H; destruct (IH H) as [k Hk]; exists k; by right).
  intros [= ->]. exists j. by left.
Qed.

Lemma In_first_error t i e :
  In (EvReturn i (Some e)) t -> exists e', first_error t = Some e'.
Proof.
  induction t as [|ev t IH]; simpl; [done|].
  intros [->|H]; [by eexists|].
  destruct ev as [| | | |j [e'|]]; auto. by eexists.
Qed.

Lemma standing_snoc (p : position Reader -> bool) gs g :
  standing p (gs ++ [g]) = standing p gs + (if p (pc g) then 1 else 0).
Proof.
  unfold standing. rewrite List.filter_app, length_app. simpl.
  by destruct (p (pc g)).
Qed.

Lemma standing_insert (p : position Reader -> bool) gs i g g' :
  gs !! i = Some g ->
  standing p (<[i := g']> gs) + (if p (pc g) then 1 else 0)
  = standing p gs + (if p (pc g') then 1 else 0).
Proof.
  unfold standing. revert i.
  induction gs as [|a gs IH]; intros [|i] H; simpl in *; try done.
  - injection H as ->. destruct (p (pc g)), (p (pc g')); simpl; lia.
  - specialize (IH i H). destruct (p (pc a)); simpl; lia.
Qed.

Lemma remaining_insert gs i g g' :
  gs !! i = Some g ->
  list_sum (map (fun g => remaining (pc g)) (<[i := g']> gs)) + remaining (pc g)
  = list_sum (map (fun g => remaining (pc g)) gs) + remaining (pc g').
Proof.
  revert i. induction gs as [|a gs IH]; intros [|i] H; simpl in *; try done.
  - injection H as ->. lia.
  - specialize (IH i H). lia.
Qed.

Lemma restRequest_insert gs i g p :
  gs !! i = Some g ->
  map restRequest (<[i := mkGoroutine (restRequest g) p]> gs) = map restRequest gs.
Proof.
  revert i. induction gs as [|a gs IH]; intros [|i] H; simpl in *; try done.
  - by injection H as ->.
  - by rewrite IH.
Qed.

Lemma standing_partition gs :
  standing at_started gs + standing at_opened gs + standing at_saved gs
  + standing at_returned gs + standing at_done gs = length gs.
Proof.
  unfold standing. induction gs as [|g gs IH]; simpl; [done|].
  destruct (pc g); simpl; lia.
Qed.

Lemma all_done_standing gs :
  forallb is_done gs = true -> standing at_done gs = length gs.
Proof.
  unfold standing. induction gs as [|g gs IH]; simpl; [done|].
  intros [Hg Hgs]%andb_prop. unfold is_done in Hg.
  destruct (pc g); try discriminate. simpl. by rewrite IH.
Qed.

Lemma all_done_lookup gs i g :
  forallb is_done gs = true -> gs !! i = Some g -> pc g = Done.
Proof.
  intros Hall Hi. rewrite forallb_forall in Hall.
  assert (Hin : In g gs).
  { apply list_elem_of_In. apply list_elem_of_lookup. by exists i. }
  specialize (Hall g Hin). unfold is_done in Hall. by destruct (pc g).
Qed.

(** *** The invariant of a run *)

Lemma consistent_init requests w : consistent' requests (init requests w).
Proof.
  split; simpl; reflexivity.
Qed.

(** When goroutine [i] takes a step, the histories of the others stay as
    they are and its own grows by the one event. *)
Lemma history_move gs t i g p ev :
  gs !! i = Some g ->
  ev_id ev = i ->
  calls_at ResourceId location i (mkGoroutine (restRequest g) p)
           (history i t ++ [ev]) ->
  (forall j, match gs !! j with
             | Some g => calls_at ResourceId location j g (history j t)
             | None => history j t = []
             end) ->
  forall j, match <[i := mkGoroutine (restRequest g) p]> gs !! j with
            | Some g => calls_at ResourceId location j g (history j (t ++ [ev]))
            | None => history j (t ++ [ev]) = []
            end.
Proof.
  intros Hg Hid Hnew Hold j. rewrite history_snoc.
  destruct (decide (j = i)) as [->|Hne].
  - rewrite list_lookup_insert_eq by (by eapply lookup_lt_Some).
    rewrite Hid, Nat.eqb_refl. exact Hnew.
  - rewrite list_lookup_insert_ne by done.
    replace (Nat.eqb (ev_id ev) j) with false
      by (symmetry; apply Nat.eqb_neq; congruence).
    rewrite app_nil_r. apply Hold.
Qed.

Ltac count_move Hg g' :=
  pose proof (standing_insert at_started _ _ _ g' Hg);
  pose proof (standing_insert at_opened _ _ _ g' Hg);
  pose proof (standing_insert at_saved _ _ _ g' Hg);
  pose proof (standing_insert at_returned _ _ _ g' Hg);
  pose proof (standing_insert at_done _ _ _ g' Hg).

Lemma consistent_step requests a s s' :
  consistent' requests s -> step' a s = Some s' -> consistent' requests s'.
Proof.
  intros [Hreq Herr Hstream Hopen Hsave Hclose Hret Hhist] Hstep.
  destruct a as [|i]; simpl in Hstep.
  - destruct (todo s) as [|request rest] eqn:Htodo; [done|].
    injection Hstep as <-.
    split; simpl; rewrite ?standing_snoc, ?length_app; simpl; try lia; try done.
    + rewrite map_app, <- app_assoc. simpl. by rewrite <- Hreq.
    + intros i. specialize (Hhist i).
      destruct (decide (i < length (goroutines s))) as [Hlt|Hge].
      * by rewrite lookup_app_l.
      * rewrite lookup_ge_None_2 in Hhist by lia.
        rewrite lookup_app_r by lia.
        destruct (i - length (goroutines s)) as [|k]; simpl; exact Hhist.
  - destruct (goroutines s !! i) as [g|] eqn:Hg; [|done].
    pose proof (Hhist i) as Hi. rewrite Hg in Hi. unfold calls_at in Hi.
    pose proof (lookup_lt_Some _ _ _ Hg) as Hlt.
    destruct (pc g) as [|reader|reader err|err|] eqn:Hpc; [| | | |done].
    + destruct (Stream (LRequest (restRequest g)) (world s)) as [[reader|err] w];
        injection Hstep as <-; unfold advance;
        match goal with |- context [<[i := ?g']> _] => count_move Hg g' end;
        rewrite Hpc in *; simpl in *;
        (split; simpl; rewrite ?count_snoc, ?length_insert; simpl; try lia).
      * by rewrite restRequest_insert.
      * by rewrite first_error_snoc, <- Herr; destruct (eg_err s).
      * apply history_move; try done. unfold calls_at; simpl. by rewrite Hi.
      * by rewrite restRequest_insert.
      * by rewrite first_error_snoc, <- Herr; destruct (eg_err s).
      * apply history_move; try done. unfold calls_at; simpl. rewrite Hi.
        left. by eexists.
    + destruct (Save storageClient location
                  (mkStorageObject reader (ResourceId (restRequest g))) (world s))
        as [err w].
      injection Hstep as <-; unfold advance.
      match goal with |- context [<[i := ?g']> _] => count_move Hg g' end.
      rewrite Hpc in *; simpl in *.
      split; simpl; rewrite ?count_snoc, ?length_insert; simpl; try lia.
      * by rewrite restRequest_insert.
      * by rewrite first_error_snoc, <- Herr; destruct (eg_err s).
      * apply history_move; try done. unfold calls_at; simpl. by rewrite Hi.
    + injection Hstep as <-; unfold advance.
      match goal with |- context [<[i := ?g']> _] => count_move Hg g' end.
      rewrite Hpc in *; simpl in *.
      split; simpl; rewrite ?count_snoc, ?length_insert; simpl; try lia.
      * by rewrite restRequest_insert.
      * by rewrite first_error_snoc, <- Herr; destruct (eg_err s).
      * apply history_move; try done. unfold calls_at; simpl. rewrite Hi.
        right. by eexists.
    + injection Hstep as <-.
      match goal with |- context [<[i := ?g']> _] => count_move Hg g' end.
      rewrite Hpc in *; simpl in *.
      split; simpl; rewrite ?count_snoc, ?length_insert; simpl; try lia.
      * by rewrite restRequest_insert.
      * rewrite first_error_snoc, <- Herr. unfold errOnce.
        by destruct err, (eg_err s).
      * apply history_move; try done. unfold calls_at; simpl.
        destruct Hi as [[e [-> ->]]|[reader ->]]; [left|right]; by repeat eexists.
Qed.

Lemma consistent_run requests sched s s' :
  consistent' requests s -> run' sched s = Some s' -> consistent' requests s'.
Proof.
  revert s. induction sched as [|a sched IH]; intros s Hs Hrun; simpl in Hrun.
  - by injection Hrun as <-.
  - destruct (step' a s) as [s1|] eqn:Hstep; [|done].
    eapply IH; [|exact Hrun]. by eapply consistent_step.
Qed.

Lemma run_app sched1 sched2 s :
  run' (sched1 ++ sched2) s
  = match run' sched1 s with Some s1 => run' sched2 s1 | None => None end.
Proof.
  revert s. induction sched1 as [|a sched1 IH]; intros s; simpl; [done|].
  destruct (step' a s); [apply IH|done].
Qed.

(** *** Progress and termination *)

Lemma fuel_init requests w :
  fuel (@init Request Reader World requests w) = 5 * length requests.
Proof. unfold fuel. simpl. lia. Qed.

Lemma step_fuel a s s' : step' a s = Some s' -> fuel s' < fuel s.
Proof.
  intros Hstep. unfold fuel. destruct a as [|i]; simpl in Hstep.
  - destruct (todo s) as [|request rest]; [done|].
    injection Hstep as <-. simpl. rewrite map_app, list_sum_app. simpl. lia.
  - destruct (goroutines s !! i) as [g|] eqn:Hg; [|done].
    destruct (pc g) as [|reader|reader err|err|] eqn:Hpc; [| | | |done].
    + destruct (Stream (LRequest (restRequest g)) (world s)) as [[reader|err] w];
        injection Hstep as <-; simpl;
        match goal with |- context [<[i := ?g']> _] =>
          pose proof (remaining_insert _ _ _ g' Hg) as H end;
        rewrite Hpc in H; simpl in H; lia.
    + destruct (Save storageClient location
                  (mkStorageObject reader (ResourceId (restRequest g))) (world s))
        as [err w].
      injection Hstep as <-; simpl.
      match goal with |- context [<[i := ?g']> _] =>
        pose proof (remaining_insert _ _ _ g' Hg) as H end.
      rewrite Hpc in H; simpl in H; lia.
    + injection Hstep as <-; simpl.
      match goal with |- context [<[i := ?g']> _] =>
        pose proof (remaining_insert _ _ _ g' Hg) as H end.
      rewrite Hpc in H; simpl in H; lia.
    + injection Hstep as <-; simpl.
      match goal with |- context [<[i := ?g']> _] =>
        pose proof (remaining_insert _ _ _ g' Hg) as H end.
      rewrite Hpc in H; simpl in H; lia.
Qed.

Lemma run_fuel sched s s' : run' sched s = Some s' -> length sched + fuel s' <= fuel s.
Proof.
  revert s. induction sched as [|a sched IH]; intros s Hrun; simpl in *.
  - injection Hrun as <-. lia.
  - destruct (step' a s) as [s1|] eqn:Hstep; [|done].
    apply step_fuel in Hstep. apply IH in Hrun. lia.
Qed.

(** A goroutine that is not done can always take its next step: nothing in
    the state of the group or of the other goroutines stands in its way. *)
Lemma goroutine_enabled s i g :
  goroutines s !! i = Some g -> pc g <> Done -> is_Some (step' (Run i) s).
Proof.
  intros Hg Hpc. simpl. rewrite Hg.
  destruct (pc g) as [|reader|reader err|err|]; [| | | |done].
  - by destruct (Stream (LRequest (restRequest g)) (world s)) as [[reader|err] w].
  - by destruct (Save storageClient location
                   (mkStorageObject reader (ResourceId (restRequest g))) (world s)).
  - done.
  - done.
Qed.

Lemma loop_enabled s : todo s <> [] -> is_Some (step' Go s).
Proof. intros H. simpl. by destruct (todo s). Qed.

Lemma not_all_done gs :
  forallb is_done gs = false -> exists i g, gs !! i = Some g /\ pc g <> Done.
Proof.
  induction gs as [|g gs IH]; simpl; [done|].
  destruct (is_done g) eqn:Hd; simpl.
  - intros H. destruct (IH H) as (i & g' & Hi & Hg'). by exists (S i), g'.
  - intros _. exists 0, g. split; [done|]. unfold is_done in Hd.
    by destruct (pc g).
Qed.

Lemma Wait_blocked s : Wait s = None -> exists a, is_Some (step' a s).
Proof.
  unfold Wait. intros H.
  destruct (todo s) as [|request rest] eqn:Htodo.
  - destruct (forallb is_done (goroutines s)) eqn:Hall; [done|].
    destruct (not_all_done _ Hall) as (i & g & Hi & Hg).
    exists (Run i). by eapply goroutine_enabled.
  - exists Go. apply loop_enabled. by rewrite Htodo.
Qed.

(** From every state some scheduler brings [Wait] to return. *)
Lemma run_completes s :
  exists sched s' result, run' sched s = Some s' /\ Wait s' = Some result.
Proof.
  remember (fuel s) as n eqn:Hn. revert s Hn.
  induction n as [n IH] using lt_wf_ind. intros s ->.
  destruct (Wait s) as [result|] eqn:HW.
  - by exists [], s, result.
  - destruct (Wait_blocked _ HW) as [a [s1 Hstep]].
    destruct (IH (fuel s1) (step_fuel _ _ _ Hstep) s1 eq_refl)
      as (sched & s' & result & Hrun & HW').
    exists (a :: sched), s', result. simpl. by rewrite Hstep.
Qed.

Lemma count_stream_call t :
  count is_stream_call t = count is_open t + count is_open_fail t.
Proof.
  unfold count. induction t as [|ev t IH]; simpl; [done|].
  destruct ev; simpl; lia.
Qed.

(** Once [Wait] returns, every request has a goroutine that is done. *)
Lemma Wait_all_done requests s result :
  consistent' requests s -> Wait s = Some result ->
  todo s = [] /\ result = eg_err s
  /\ length (goroutines s) = length requests
  /\ standing at_done (goroutines s) = length requests
  /\ forall i request, requests !! i = Some request ->
       exists g, goroutines s !! i = Some g /\ restRequest g = request
                 /\ pc g = Done.
Proof.
  intros Hc HW. unfold Wait in HW.
  destruct (todo s) eqn:Htodo; [|done].
  destruct (forallb is_done (goroutines s)) eqn:Hall; [|done].
  injection HW as <-.
  destruct Hc as [Hreq _ _ _ _ _ _ _].
  rewrite Htodo, app_nil_r in Hreq.
  assert (Hlen : length (goroutines s) = length requests).
  { rewrite <- Hreq. by rewrite length_map. }
  repeat split; try done.
  - rewrite <- Hlen. by apply all_done_standing.
  - intros i request Hi. rewrite <- Hreq in Hi.
    change (map restRequest (goroutines s)) with (restRequest <$> goroutines s) in Hi.
    rewrite list_lookup_fmap in Hi.
    destruct (goroutines s !! i) as [g|] eqn:Hg; [|done].
    injection Hi as Hi. exists g. repeat split; try done.
    by eapply all_done_lookup.
Qed.

Lemma goroutine_request requests s i g :
  consistent' requests s -> goroutines s !! i = Some g ->
  requests !! i = Some (restRequest g).
Proof.
  intros [Hreq _ _ _ _ _ _ _] Hg. rewrite <- Hreq.
  rewrite lookup_app_l by (rewrite length_map; by eapply lookup_lt_Some).
  change (map restRequest (goroutines s)) with (restRequest <$> goroutines s).
  by rewrite list_lookup_fmap, Hg.
Qed.

(** *** The trace is the list of the calls made *)

Lemma count_app (p : event' -> bool) t1 t2 :
  count p (t1 ++ t2) = count p t1 + count p t2.
Proof. unfold count. by rewrite List.filter_app, length_app. Qed.

Lemma history_app i t1 t2 :
  history i (t1 ++ t2) = history i t1 ++ history i t2.
Proof. unfold history. apply List.filter_app. Qed.

Lemma performed_app requests t1 t2 w w1 w' :
  performed' requests t1 w w1 -> performed' requests t2 w1 w' ->
  performed' requests (t1 ++ t2) w w'.
Proof.
  revert w. induction t1 as [|ev t1 IH]; intros w H1 H2; simpl in *.
  - by subst.
  - destruct H1 as (w0 & Hev & H1). exists w0. split; [done|]. by apply IH.
Qed.

(** A step appends to the trace the call it makes, if any, and the world
    it leaves is the one that call left. *)
Lemma step_performed requests a s s' :
  consistent' requests s -> step' a s = Some s' ->
  exists evs, trace s' = trace s ++ evs
              /\ performed' requests evs (world s) (world s').
Proof.
  intros Hc Hstep. destruct a as [|i]; simpl in Hstep.
  - destruct (todo s); [done|]. injection Hstep as <-. exists []. simpl.
    by rewrite app_nil_r.
  - destruct (goroutines s !! i) as [g|] eqn:Hg; [|done].
    pose proof (goroutine_request _ _ _ _ Hc Hg) as Hreq.
    destruct (pc g) as [|reader|reader err|err|]; [| | | |done].
    + destruct (Stream (LRequest (restRequest g)) (world s))
        as [[reader|err] w] eqn:Hs;
        injection Hstep as <-; eexists [_]; (split; [reflexivity|]);
        exists w; (split; [|reflexivity]); by exists (restRequest g).
    + destruct (Save storageClient location
                  (mkStorageObject reader (ResourceId (restRequest g))) (world s))
        as [err w] eqn:Hs.
      injection Hstep as <-. eexists [_]. split; [reflexivity|].
      exists w. by split.
    + injection Hstep as <-. eexists [_]. split; [reflexivity|].
      eexists. by split.
    + injection Hstep as <-. eexists [_]. split; [reflexivity|].
      eexists. by split.
Qed.

Lemma run_performed requests sched s s' :
  consistent' requests s -> run' sched s = Some s' ->
  exists later, trace s' = trace s ++ later
                /\ performed' requests later (world s) (world s').
Proof.
  revert s. induction sched as [|a sched IH]; intros s Hc Hrun; simpl in Hrun.
  - injection Hrun as <-. exists []. simpl. by rewrite app_nil_r.
  - destruct (step' a s) as [s1|] eqn:Hstep; [|done].
    destruct (step_performed _ _ _ _ Hc Hstep) as (evs & Ht & Hp).
    destruct (IH s1 (consistent_step _ _ _ _ Hc Hstep) Hrun) as (later & Ht' & Hp').
    exists (evs ++ later). split.
    + by rewrite Ht', Ht, app_assoc.
    + by eapply performed_app.
Qed.

(** An observer of the world that goes up by one at the calls of one
    kind, and stays at all others, has gone up by the number of such calls
    in the trace. *)
Lemma performed_observe (obs : World -> nat) (p : event' -> bool) requests t w w' :
  (forall ev w1 w2, call' requests ev w1 w2 ->
                    obs w2 = obs w1 + (if p ev then 1 else 0)) ->
  performed' requests t w w' ->
  obs w' = obs w + count p t.
Proof.
  intros Hobs. revert w. induction t as [|ev t IH]; intros w H; simpl in H.
  - subst. unfold count. simpl. lia.
  - destruct H as (w1 & Hev & H). rewrite (IH _ H), (Hobs _ _ _ Hev).
    unfold count. simpl. destruct (p ev); simpl; lia.
Qed.

(** *** What [SaveLogs] guarantees *)

Lemma SaveLogs_inv requests w sched result s :
  SaveLogs' requests w sched = Some (result, s) ->
  run' sched (init requests w) = Some s /\ Wait s = Some result
  /\ consistent' requests s.
Proof.
  unfold SaveLogs. intros H.
  destruct (run' sched (init requests w)) as [s1|] eqn:Hrun; [|done].
  destruct (Wait s1) as [r|] eqn:HW; [|done].
  injection H as <- <-. split; [done|]. split; [done|].
  eapply consistent_run; [apply consistent_init | exact Hrun].
Qed.

(** A goroutine's history is empty until [eg.Go] has started it. *)
Lemma history_lookup requests s i ev :
  consistent' requests s -> In ev (trace s) -> ev_id ev = i ->
  exists g, goroutines s !! i = Some g
            /\ calls_at ResourceId location i g (history i (trace s))
            /\ In ev (history i (trace s)).
Proof.
  intros [_ _ _ _ _ _ _ Hhist] Hin Hid.
  pose proof (history_In i _ _ Hin Hid) as Hin'.
  specialize (Hhist i). destruct (goroutines s !! i) as [g|].
  - by exists g.
  - rewrite Hhist in Hin'. destruct Hin'.
Qed.

(** A failed open is never followed by a save or a close in the same
    goroutine, and is the error its closure returns. *)
Lemma open_fail_history requests s i e :
  consistent' requests s -> In (EvOpenFail i e) (trace s) ->
  history i (trace s) = [EvOpenFail i e]
  \/ history i (trace s) = [EvOpenFail i e; EvReturn i (Some e)].
Proof.
  intros Hc Hin.
  destruct (history_lookup _ _ i _ Hc Hin eq_refl) as (g & _ & Hcalls & Hin').
  unfold calls_at in Hcalls.
  destruct (pc g) as [|reader|reader err|err|].
  - rewrite Hcalls in Hin'. destruct Hin'.
  - rewrite Hcalls in Hin'. simpl in Hin'. by intuition.
  - rewrite Hcalls in Hin'. simpl in Hin'. by intuition.
  - destruct Hcalls as [(e' & -> & Hh)|(reader & Hh)]; rewrite Hh in Hin' |- *;
      simpl in Hin'.
    + left. destruct Hin' as [[= ->]|[]]. done.
    + by intuition.
  - destruct Hcalls as [(e' & Hh)|(reader & err & Hh)]; rewrite Hh in Hin' |- *;
      simpl in Hin'.
    + right. destruct Hin' as [[= ->]|[[=]|[]]]. done.
    + by intuition.
Qed.

(** C4: whatever the scheduler does, SaveLogs over N requests of which K
    fail to open their stream calls Save exactly N - K times; every
    goroutine that is not done can take its next step whatever happened to
    the others, no run is longer than 5 N steps and every partial run extends
    to one on which SaveLogs returns; when it returns, the closure of every
    request has returned, and the error returned is the first error handed
    to the group: an error whenever some request failed, and then the error
    of one of the requests.  The events counted are the calls made: the trace
    is the sequence of Stream, Save and Close calls applied one after the
    other to the world SaveLogs started in, leaving the world it ends in, so
    that a storage client that counts its Save invocations has counted
    N - K more when SaveLogs returns. *)
Theorem SaveLogs_fail_soft requests w :
  (forall sched s,
      run' sched (init requests w) = Some s ->
      (forall i g, goroutines s !! i = Some g -> pc g <> Done ->
                   is_Some (step' (Run i) s))
      /\ (todo s <> [] -> is_Some (step' Go s))
      /\ length sched <= 5 * length requests
      /\ exists sched' result s',
           SaveLogs' requests w (sched ++ sched') = Some (result, s'))
  /\ (forall sched result s,
        SaveLogs' requests w sched = Some (result, s) ->
        count is_open_fail (trace s) <= length requests
        /\ count is_save (trace s)
           = length requests - count is_open_fail (trace s)
        /\ count is_return (trace s) = length requests
        /\ (forall i, i < length requests ->
                      exists err, last (history i (trace s)) = Some (EvReturn i err))
        /\ result = first_error (trace s)
        /\ (forall i e, In (EvOpenFail i e) (trace s) ->
                        In (EvReturn i (Some e)) (trace s))
        /\ (forall i e, In (EvReturn i (Some e)) (trace s) -> is_Some result)
        /\ (forall e, result = Some e ->
                      exists i, In (EvReturn i (Some e)) (trace s))
        /\ performed Stream Close storageClient requests (trace s) w (world s)
        /\ (forall saves : World -> nat,
              (forall r w1, saves (snd (Stream r w1)) = saves w1) ->
              (forall location' obj w1,
                  saves (snd (Save storageClient location' obj w1))
                  = S (saves w1)) ->
              (forall reader w1, saves (Close reader w1) = saves w1) ->
              saves (world s)
              = saves w + (length requests - count is_open_fail (trace s)))).
Proof.
  split.
  - intros sched s Hrun. repeat split.
    + intros i g. apply goroutine_enabled.
    + apply loop_enabled.
    + apply run_fuel in Hrun. rewrite fuel_init in Hrun. lia.
    + destruct (run_completes s) as (sched' & s' & result & Hrun' & HW).
      exists sched', result, s'. unfold SaveLogs.
      by rewrite run_app, Hrun, Hrun', HW.
  - intros sched result s H.
    destruct (SaveLogs_inv _ _ _ _ _ H) as (Hrun & HW & Hc).
    destruct (Wait_all_done _ _ _ Hc HW) as (Htodo & -> & Hlen & Hdone & Hall).
    pose proof (standing_partition (goroutines s)) as Hpart.
    pose proof Hc as [_ Herr Hstream Hopen Hsave Hclose Hret Hhist].
    destruct (run_performed _ _ _ _ (consistent_init requests w) Hrun)
      as (later & Hlater & Hperf).
    simpl in Hlater, Hperf. subst later.
    assert (Hsaves : count is_save (trace s)
                     = length requests - count is_open_fail (trace s)) by lia.
    split; [lia|]. split; [exact Hsaves|]. split; [lia|].
    split; [|split; [exact Herr|split; [|split; [|split; [|split]]]]].
    + intros i Hi.
      destruct (lookup_lt_is_Some_2 requests i Hi) as [request Hreq].
      destruct (Hall i request Hreq) as (g & Hg & _ & Hpc).
      specialize (Hhist i). rewrite Hg in Hhist. unfold calls_at in Hhist.
      rewrite Hpc in Hhist.
      destruct Hhist as [(e & ->)|(reader & err & ->)]; by eexists.
    + intros i e Hin.
      destruct (open_fail_history _ _ _ _ Hc Hin) as [Hh|Hh].
      * destruct (history_lookup _ _ i _ Hc Hin eq_refl) as (g & Hg & Hcalls & _).
        assert (Hi : i < length requests).
        { rewrite <- Hlen. by eapply lookup_lt_Some. }
        destruct (lookup_lt_is_Some_2 requests i Hi) as [request Hreq].
        destruct (Hall i request Hreq) as (g' & Hg' & _ & Hpc).
        assert (g' = g) as -> by congruence.
        unfold calls_at in Hcalls. rewrite Hpc, Hh in Hcalls.
        destruct Hcalls as [(e' & [=])|(reader & err & [=])].
      * apply (In_history i). rewrite Hh. simpl. auto.
    + intros i e Hin. rewrite Herr.
      destruct (In_first_error _ _ _ Hin) as [e' ->]. by eexists.
    + intros e He. apply first_error_In. by rewrite <- Herr.
    + exact Hperf.
    + intros saves Hs1 Hs2 Hs3. rewrite <- Hsaves.
      apply (performed_observe saves is_save requests); [|exact Hperf].
      intros ev w1 w2 Hev. destruct ev as [j reader|j e|j l obj e|j reader|j e];
        simpl in Hev |- *.
      * destruct Hev as (request & _ & Hev).
        rewrite <- (Hs1 (LRequest request) w1), Hev. simpl. lia.
      * destruct Hev as (request & _ & Hev).
        rewrite <- (Hs1 (LRequest request) w1), Hev. simpl. lia.
      * pose proof (Hs2 l obj w1) as Hn. rewrite Hev in Hn. simpl in Hn. lia.
      * subst w2. rewrite Hs3. lia.
      * subst w2. lia.
Qed.

(** C5: at every moment of every run, a request's stream has been opened
    at most once and closed no more often than opened; a request whose open
    failed has no Close call; and when SaveLogs returns, each request has
    made either the calls Stream (failing) and nothing else, or the calls
    Stream, Save, Close in this order, once each, on the one reader, whether
    Save returned an error or not.  The Close events are Close calls applied
    to the world: the trace is the sequence of calls made one after the other
    on the world SaveLogs started in, leaving the world of the state; so a
    test double that counts the streams it opens and the streams it closes
    has, at every moment, closed no more than it opened, and as many when
    SaveLogs returns. *)
Theorem SaveLogs_closes_each_stream_once requests w sched s :
  run' sched (init requests w) = Some s ->
  performed Stream Close storageClient requests (trace s) w (world s)
  /\ (forall opens closes : World -> nat,
        (forall r w1,
            opens (snd (Stream r w1))
            = match fst (Stream r w1) with
              | inl _ => S (opens w1)
              | inr _ => opens w1
              end) ->
        (forall location' obj w1,
            opens (snd (Save storageClient location' obj w1)) = opens w1) ->
        (forall reader w1, opens (Close reader w1) = opens w1) ->
        (forall r w1, closes (snd (Stream r w1)) = closes w1) ->
        (forall location' obj w1,
            closes (snd (Save storageClient location' obj w1)) = closes w1) ->
        (forall reader w1, closes (Close reader w1) = S (closes w1)) ->
        opens (world s) = opens w + count is_open (trace s)
        /\ closes (world s) = closes w + count is_close (trace s)
        /\ count is_close (trace s) <= count is_open (trace s)
        /\ (forall result, Wait s = Some result ->
                           count is_close (trace s) = count is_open (trace s)))
  /\ forall i request,
      requests !! i = Some request ->
      count is_open (history i (trace s)) <= 1
      /\ count is_close (history i (trace s)) <= count is_open (history i (trace s))
      /\ (forall e, In (EvOpenFail i e) (trace s) ->
                    count is_close (history i (trace s)) = 0)
      /\ (forall result,
            Wait s = Some result ->
            (exists reader err,
                history i (trace s)
                = [EvOpen i reader;
                   EvSave i location (mkStorageObject reader (ResourceId request)) err;
                   EvClose i reader; EvReturn i err])
            \/ (exists e, history i (trace s) = [EvOpenFail i e; EvReturn i (Some e)])).
Proof.
  intros Hrun.
  assert (Hc : consistent' requests s)
    by (eapply consistent_run; [apply consistent_init | exact Hrun]).
  destruct (run_performed _ _ _ _ (consistent_init requests w) Hrun)
    as (later & Hlater & Hperf).
  simpl in Hlater, Hperf. subst later.
  split; [exact Hperf|]. split.
  { intros opens closes Ho1 Ho2 Ho3 Hc1 Hc2 Hc3.
    split; [|split; [|split]].
    - apply (performed_observe opens is_open requests); [|exact Hperf].
      intros ev w1 w2 Hev. destruct ev as [j reader|j e|j l obj e|j reader|j e];
        simpl in Hev |- *.
      + destruct Hev as (request & _ & Hev).
        pose proof (Ho1 (LRequest request) w1) as Hn. rewrite Hev in Hn.
        simpl in Hn. lia.
      + destruct Hev as (request & _ & Hev).
        pose proof (Ho1 (LRequest request) w1) as Hn. rewrite Hev in Hn.
        simpl in Hn. lia.
      + pose proof (Ho2 l obj w1) as Hn. rewrite Hev in Hn. simpl in Hn. lia.
      + subst w2. rewrite Ho3. lia.
      + subst w2. lia.
    - apply (performed_observe closes is_close requests); [|exact Hperf].
      intros ev w1 w2 Hev. destruct ev as [j reader|j e|j l obj e|j reader|j e];
        simpl in Hev |- *.
      + destruct Hev as (request & _ & Hev).
        pose proof (Hc1 (LRequest request) w1) as Hn. rewrite Hev in Hn.
        simpl in Hn. lia.
      + destruct Hev as (request & _ & Hev).
        pose proof (Hc1 (LRequest request) w1) as Hn. rewrite Hev in Hn.
        simpl in Hn. lia.
      + pose proof (Hc2 l obj w1) as Hn. rewrite Hev in Hn. simpl in Hn. lia.
      + subst w2. rewrite Hc3. lia.
      + subst w2. lia.
    - destruct Hc as [_ _ _ Hopen Hsave _ _ _]. lia.
    - intros result HW.
      destruct (Wait_all_done _ _ _ Hc HW) as (_ & _ & Hlen & Hdone & _).
      pose proof (standing_partition (goroutines s)) as Hpart.
      destruct Hc as [_ _ _ Hopen Hsave _ _ _]. lia. }
  intros i request Hreq.
  assert (Hcounts : count is_open (history i (trace s)) <= 1
                    /\ count is_close (history i (trace s))
                       <= count is_open (history i (trace s))).
  { destruct Hc as [_ _ _ _ _ _ _ Hhist]. specialize (Hhist i).
    destruct (goroutines s !! i) as [g|].
    - unfold calls_at in Hhist. destruct (pc g).
      + rewrite Hhist. unfold count. simpl. lia.
      + rewrite Hhist. unfold count. simpl. lia.
      + rewrite Hhist. unfold count. simpl. lia.
      + destruct Hhist as [(e & _ & ->)|(reader & ->)]; unfold count; simpl; lia.
      + destruct Hhist as [(e & ->)|(reader & err & ->)]; unfold count; simpl; lia.
    - rewrite Hhist. unfold count. simpl. lia. }
  destruct Hcounts as [H1 H2]. repeat split; try done.
  - intros e Hin.
    by destruct (open_fail_history _ _ _ _ Hc Hin) as [-> | ->].
  - intros result HW.
    destruct (Wait_all_done _ _ _ Hc HW) as (_ & _ & _ & _ & Hall).
    destruct (Hall i request Hreq) as (g & Hg & <- & Hpc).
    destruct Hc as [_ _ _ _ _ _ _ Hhist]. specialize (Hhist i).
    rewrite Hg in Hhist. unfold calls_at in Hhist. rewrite Hpc in Hhist.
    destruct Hhist as [(e & ->)|(reader & err & ->)].
    + right. by exists e.
    + left. by exists reader, err.
Qed.

(** C6: over the empty request list the only run is the empty one:
    SaveLogs returns nil, makes no call and leaves the world as it was; and in
    every run over any requests, a request whose Stream call failed has no
    Save call. *)
Theorem SaveLogs_no_requests_no_calls w :
  SaveLogs' [] w [] = Some (None, init [] w)
  /\ (forall sched result s,
        SaveLogs' [] w sched = Some (result, s) ->
        result = None /\ trace s = [] /\ world s = w)
  /\ (forall requests sched s i e,
        run' sched (init requests w) = Some s ->
        In (EvOpenFail i e) (trace s) ->
        forall location' obj err, ~ In (EvSave i location' obj err) (trace s)).
Proof.
  split; [reflexivity|]. split.
  - intros sched result s H. unfold SaveLogs in H.
    destruct sched as [|a sched]; simpl in H.
    + by injection H as <- <-.
    + by destruct a.
  - intros requests sched s i e Hrun Hfail location' obj err Hsave.
    assert (Hc : consistent' requests s)
      by (eapply consistent_run; [apply consistent_init | exact Hrun]).
    apply (history_In i) in Hsave; [|done].
    destruct (open_fail_history _ _ _ _ Hc Hfail) as [Hh|Hh];
      rewrite Hh in Hsave; simpl in Hsave; by intuition.
Qed.

(** C7 (as the code has it): SaveLogs is given no cancellation signal and
    nothing stops it early.  Cut a run on which SaveLogs returns at any step
    k: the calls made from step k on are applied, one after the other, to the
    world the first k steps left, leaving the world SaveLogs ends in; the
    Stream calls among them are as many as the requests the loop had not yet
    reached plus the goroutines that had not yet called Stream; every
    request has, when SaveLogs returns, made its Stream call once and, if the
    stream opened, one Save and one Close call on it, in this order; and for
    a request that had made no call by step k all of these calls come after
    step k. *)
Theorem SaveLogs_takes_no_cancellation requests w sched result s k :
  SaveLogs' requests w sched = Some (result, s) ->
  exists s1 later,
    run' (take k sched) (init requests w) = Some s1
    /\ stream_calls_from Stream Close ResourceId storageClient location
         k sched (init requests w)
       = Some (length (todo s1) + standing at_started (goroutines s1))
    /\ count is_stream_call (trace s) = length requests
    /\ count is_save (trace s) = count is_open (trace s)
    /\ count is_close (trace s) = count is_open (trace s)
    /\ trace s = trace s1 ++ later
    /\ performed Stream Close storageClient requests later (world s1) (world s)
    /\ forall i request,
        requests !! i = Some request ->
        ((exists reader err,
             history i (trace s)
             = [EvOpen i reader;
                EvSave i location (mkStorageObject reader (ResourceId request)) err;
                EvClose i reader; EvReturn i err])
         \/ (exists e, history i (trace s) = [EvOpenFail i e; EvReturn i (Some e)]))
        /\ (history i (trace s1) = [] -> history i later = history i (trace s)).
Proof.
  intros H.
  destruct (SaveLogs_inv _ _ _ _ _ H) as (Hrun & HW & Hc).
  rewrite <- (take_drop k sched), run_app in Hrun.
  destruct (run' (take k sched) (init requests w)) as [s1|] eqn:Hrun1; [|done].
  assert (Hc1 : consistent' requests s1)
    by (eapply consistent_run; [apply consistent_init | exact Hrun1]).
  destruct (run_performed _ _ _ _ Hc1 Hrun) as (later & Hlater & Hperf).
  exists s1, later. split; [done|].
  destruct (Wait_all_done _ _ _ Hc HW) as (Htodo & _ & Hlen & Hdone & Hall).
  pose proof (standing_partition (goroutines s)) as Hpart.
  pose proof Hc as [_ _ Hstream Hopen Hsave Hclose Hret Hhist].
  destruct Hc1 as [Hreq1 _ Hstream1 _ _ _ _ _].
  assert (Hlen1 : length (goroutines s1) + length (todo s1) = length requests).
  { rewrite <- Hreq1. by rewrite length_app, length_map. }
  unfold stream_calls_from. rewrite Hrun1, Hrun.
  rewrite !count_stream_call.
  split; [f_equal; lia|]. split; [lia|]. split; [lia|]. split; [lia|].
  split; [exact Hlater|]. split; [exact Hperf|].
  intros i request Hi. split.
  - destruct (Hall i request Hi) as (g & Hg & <- & Hpc).
    specialize (Hhist i). rewrite Hg in Hhist. unfold calls_at in Hhist.
    rewrite Hpc in Hhist.
    destruct Hhist as [(e & ->)|(reader & err & ->)].
    + right. by exists e.
    + left. by exists reader, err.
  - intros Hnone. by rewrite Hlater, history_app, Hnone.
Qed.

(** *** Further facts on [SaveLogs] *)

Lemma Wait_done s result i g :
  Wait s = Some result -> goroutines s !! i = Some g -> pc g = Done.
Proof.
  unfold Wait. destruct (todo s); [|done].
  destruct (forallb is_done (goroutines s)) eqn:Hall; [|done].
  intros _. by apply all_done_lookup.
Qed.

(** The calls of a goroutine whose closure has returned and been recorded. *)
Lemma done_history requests s result i ev :
  consistent' requests s -> Wait s = Some result ->
  In ev (trace s) -> ev_id ev = i ->
  (exists e, history i (trace s) = [EvOpenFail i e; EvReturn i (Some e)])
  \/ (exists g reader err,
         goroutines s !! i = Some g
         /\ history i (trace s)
            = [EvOpen i reader; EvSave i location (saved_object ResourceId g reader) err;
               EvClose i reader; EvReturn i err]).
Proof.
  intros Hc HW Hin Hid.
  destruct (history_lookup _ _ i _ Hc Hin Hid) as (g & Hg & Hcalls & _).
  unfold calls_at in Hcalls. rewrite (Wait_done _ _ _ _ HW Hg) in Hcalls.
  destruct Hcalls as [(e & Hh)|(reader & err & Hh)].
  - left. by exists e.
  - right. by exists g, reader, err.
Qed.

(** X5: SaveLogs returns nil exactly when every stream opened and every Save
    returned nil; an error it returns is the error of a failed Stream call
    or of a failed Save call of one of the requests. *)
Theorem SaveLogs_nil_iff_all_succeed requests w sched result s :
  SaveLogs' requests w sched = Some (result, s) ->
  (result = None <->
   (forall i e, ~ In (EvOpenFail i e) (trace s))
   /\ (forall i location' obj e, ~ In (EvSave i location' obj (Some e)) (trace s)))
  /\ (forall e, result = Some e ->
                exists i, In (EvOpenFail i e) (trace s)
                          \/ exists obj, In (EvSave i location obj (Some e)) (trace s)).
Proof.
  intros H. destruct (SaveLogs_inv _ _ _ _ _ H) as (Hrun & HW & Hc).
  assert (Hres : result = first_error (trace s)).
  { destruct Hc as [_ Herr _ _ _ _ _ _]. unfold Wait in HW.
    destruct (todo s); [|done].
    destruct (forallb is_done (goroutines s)); [|done]. congruence. }
  assert (Hsome : forall e, result = Some e ->
            exists i, In (EvOpenFail i e) (trace s)
                      \/ exists obj, In (EvSave i location obj (Some e)) (trace s)).
  { intros e He. rewrite Hres in He.
    destruct (first_error_In _ _ He) as [i Hi]. exists i.
    destruct (done_history _ _ _ i _ Hc HW Hi eq_refl)
      as [(e' & Hh)|(g & reader & err & Hg & Hh)];
      pose proof (history_In i _ _ Hi eq_refl) as Hi'; rewrite Hh in Hi'; simpl in Hi'.
    - left. destruct Hi' as [[=]|[[= ->]|[]]].
      apply (In_history i). rewrite Hh. by left.
    - right. destruct Hi' as [[=]|[[=]|[[=]|[[= ->]|[]]]]].
      eexists. apply (In_history i). rewrite Hh. right. by left. }
  split; [split|exact Hsome].
  - intros ->. split.
    + intros i e Hin.
      destruct (done_history _ _ _ i _ Hc HW Hin eq_refl)
        as [(e' & Hh)|(g & reader & err & Hg & Hh)].
      * assert (Hr : In (EvReturn i (Some e')) (trace s)).
        { apply (In_history i). rewrite Hh. right. by left. }
        destruct (In_first_error _ _ _ Hr) as [e'' He'']. congruence.
      * apply (history_In i) in Hin; [|done]. rewrite Hh in Hin. simpl in Hin.
        by intuition.
    + intros i location' obj e Hin.
      destruct (done_history _ _ _ i _ Hc HW Hin eq_refl)
        as [(e' & Hh)|(g & reader & err & Hg & Hh)];
        pose proof (history_In i _ _ Hin eq_refl) as Hin'; rewrite Hh in Hin';
        simpl in Hin'.
      * by intuition.
      * destruct Hin' as [[=]|[[= <- <- ->]|[[=]|[[=]|[]]]]].
        assert (Hr : In (EvReturn i (Some e)) (trace s)).
        { apply (In_history i). rewrite Hh. simpl. auto. }
        destruct (In_first_error _ _ _ Hr) as [e'' He'']. congruence.
  - intros [Hopen Hsave]. destruct result as [e|]; [|done].
    destruct (Hsome e eq_refl) as [i [Hi|[obj Hi]]].
    + destruct (Hopen _ _ Hi).
    + destruct (Hsave _ _ _ _ Hi).
Qed.

Lemma eg_err_step a s s' e :
  step' a s = Some s' -> eg_err s = Some e -> eg_err s' = Some e.
Proof.
  intros Hstep He. destruct a as [|i]; simpl in Hstep.
  - destruct (todo s); [done|]. by injection Hstep as <-.
  - destruct (goroutines s !! i) as [g|]; [|done].
    destruct (pc g) as [|reader|reader err|err|]; [| | | |done].
    + destruct (Stream (LRequest (restRequest g)) (world s)) as [[reader|err] w];
        by injection Hstep as <-.
    + destruct (Save storageClient location
                  (mkStorageObject reader (ResourceId (restRequest g))) (world s)).
      by injection Hstep as <-.
    + by injection Hstep as <-.
    + injection Hstep as <-. simpl. rewrite He. by destruct err.
Qed.

Lemma eg_err_run sched s s' e :
  run' sched s = Some s' -> eg_err s = Some e -> eg_err s' = Some e.
Proof.
  revert s. induction sched as [|a sched IH]; intros s Hrun He; simpl in Hrun.
  - by injection Hrun as <-.
  - destruct (step' a s) as [s1|] eqn:Hstep; [|done].
    eapply IH; [exact Hrun|]. by eapply eg_err_step.
Qed.

(** X6: the first error wins: once the group has recorded an error, that is
    the error SaveLogs returns, however the run goes on and whatever fails
    later. *)
Theorem SaveLogs_first_error_wins requests w sched1 sched2 s1 e result s :
  run' sched1 (init requests w) = Some s1 ->
  eg_err s1 = Some e ->
  SaveLogs' requests w (sched1 ++ sched2) = Some (result, s) ->
  result = Some e.
Proof.
  intros Hrun1 He H.
  destruct (SaveLogs_inv _ _ _ _ _ H) as (Hrun & HW & _).
  rewrite run_app, Hrun1 in Hrun.
  pose proof (eg_err_run _ _ _ _ Hrun He) as He'.
  unfold Wait in HW. destruct (todo s); [|done].
  destruct (forallb is_done (goroutines s)); [|done]. congruence.
Qed.

(** X7: at every moment of every run: a Save call is made at the location
    SaveLogs was given, on the reader that the same request's Stream call
    returned just before, under that request's ResourceId; and a Close call
    is made on that reader after the Save call has returned. *)
Theorem SaveLogs_call_arguments requests w sched s :
  run' sched (init requests w) = Some s ->
  (forall i location' obj err,
      In (EvSave i location' obj err) (trace s) ->
      location' = location
      /\ (exists request, requests !! i = Some request
                          /\ ObjName obj = ResourceId request)
      /\ exists rest,
           history i (trace s)
           = EvOpen i (Resource obj) :: EvSave i location' obj err :: rest)
  /\ (forall i reader,
        In (EvClose i reader) (trace s) ->
        exists obj err rest,
          Resource obj = reader
          /\ history i (trace s)
             = EvOpen i reader :: EvSave i location obj err
                 :: EvClose i reader :: rest).
Proof.
  intros Hrun.
  assert (Hc : consistent' requests s)
    by (eapply consistent_run; [apply consistent_init | exact Hrun]).
  split.
  - intros i location' obj err Hin.
    destruct (history_lookup _ _ i _ Hc Hin eq_refl) as (g & Hg & Hcalls & Hin').
    pose proof (goroutine_request _ _ _ _ Hc Hg) as Hreq.
    unfold calls_at in Hcalls.
    destruct (pc g) as [|reader|reader err'|err'|].
    + rewrite Hcalls in Hin'. destruct Hin'.
    + rewrite Hcalls in Hin'. simpl in Hin'. by intuition.
    + rewrite Hcalls in Hin' |- *. simpl in Hin'.
      destruct Hin' as [[=]|[[= <- <- <-]|[]]].
      split; [done|]. split; [by eexists|]. by eexists.
    + destruct Hcalls as [(e & _ & Hh)|(reader & Hh)];
        rewrite Hh in Hin' |- *; simpl in Hin'; [by intuition|].
      destruct Hin' as [[=]|[[= <- <- <-]|[[=]|[]]]].
      split; [done|]. split; [by eexists|]. by eexists.
    + destruct Hcalls as [(e & Hh)|(reader & err'' & Hh)];
        rewrite Hh in Hin' |- *; simpl in Hin'; [by intuition|].
      destruct Hin' as [[=]|[[= <- <- <-]|[[=]|[[=]|[]]]]].
      split; [done|]. split; [by eexists|]. by eexists.
  - intros i reader Hin.
    destruct (history_lookup _ _ i _ Hc Hin eq_refl) as (g & Hg & Hcalls & Hin').
    unfold calls_at in Hcalls.
    destruct (pc g) as [|reader'|reader' err'|err'|].
    + rewrite Hcalls in Hin'. destruct Hin'.
    + rewrite Hcalls in Hin'. simpl in Hin'. by intuition.
    + rewrite Hcalls in Hin'. simpl in Hin'. by intuition.
    + destruct Hcalls as [(e & _ & Hh)|(reader' & Hh)];
        rewrite Hh in Hin' |- *; simpl in Hin'; [by intuition|].
      destruct Hin' as [[=]|[[=]|[[= <-]|[]]]].
      by exists (saved_object ResourceId g reader'), err', [].
    + destruct Hcalls as [(e & Hh)|(reader' & err'' & Hh)];
        rewrite Hh in Hin' |- *; simpl in Hin'; [by intuition|].
      destruct Hin' as [[=]|[[=]|[[= <-]|[[=]|[]]]]].
      by exists (saved_object ResourceId g reader'), err'', [EvReturn i err''].
Qed.

(** X8: with a single request the scheduler has no choice, and SaveLogs is
    the closure run once: if Stream fails, its error is returned and the
    world is as Stream left it; otherwise the result is what Save returned
    and the world is the one Stream, then Save, then Close left. *)
Theorem SaveLogs_single_request request w sched result s :
  SaveLogs' [request] w sched = Some (result, s) ->
  match Stream (LRequest request) w with
  | (inr e, w1) => result = Some e /\ world s = w1
  | (inl reader, w1) =>
      result = fst (Save storageClient location
                         (mkStorageObject reader (ResourceId request)) w1)
      /\ world s
         = Close reader
             (snd (Save storageClient location
                        (mkStorageObject reader (ResourceId request)) w1))
  end.
Proof.
  unfold SaveLogs. intros H.
  destruct sched as [|[|i] sched]; simpl in H; [done| |done].
  destruct sched as [|[|[|i]] sched]; simpl in H; [done|done| |done].
  destruct (Stream (LRequest request) w) as [[reader|e] w1]; simpl in H.
  - destruct sched as [|[|[|i]] sched]; simpl in H; [done|done| |done].
    destruct (Save storageClient location
                (mkStorageObject reader (ResourceId request)) w1) as [err w2].
    simpl in *.
    destruct sched as [|[|[|i]] sched]; simpl in H; [done|done| |done].
    destruct sched as [|[|[|i]] sched]; simpl in H; [done|done| |done].
    destruct sched as [|[|[|i]] sched]; simpl in H; [|done|done|done].
    injection H as <- <-. simpl. split; [by destruct err|done].
  - destruct sched as [|[|[|i]] sched]; simpl in H; [done|done| |done].
    destruct sched as [|[|[|i]] sched]; simpl in H; [|done|done|done].
    by injection H as <- <-.
Qed.

End ArchiverFacts.

(** ** The definitions at work on the small cluster *)

(** C1: RetrieveLogs calls buildLogsRequest without its options, so the
    requests that RetrieveLogs and LogsFromUnstructured build are those of
    the empty option list, whatever options they were given.  With
    FollowLogs supplied, buildLogsRequest builds requests with Follow set,
    RetrieveLogs and LogsFromUnstructured build them with Follow unset. *)
Theorem RetrieveLogs_drops_options :
  (forall (Request U : Type) (lrb : LogRequestBuilder Request U) pods optsFunc,
      RetrieveLogs lrb pods optsFunc
      = concat (map (fun pod =>
                       map (request_for lrb pod emptyPodLogOptions)
                           (Containers (Spec pod) ++ InitContainers (Spec pod)))
                    (Items pods)))
  /\ map (fun r => Follow (snd (LRequest r)))
         (buildLogsRequest Demo.lrb Demo.podB [Some FollowLogs])
     = [true; true]
  /\ map (fun r => Follow (snd (LRequest r)))
         (RetrieveLogs Demo.lrb (mkPodList [Demo.podB]) [Some FollowLogs])
     = [false; false]
  /\ map (fun r => Follow (snd (LRequest r)))
         (fst (LogsFromUnstructured Demo.lrb true [Some FollowLogs]))
     = [false; false; false; false].
Proof.
  split; [|repeat split].
  intros Request U lrb pods optsFunc.
  rewrite RetrieveLogs_requests. f_equal.
  apply map_ext. intros pod. apply buildLogsRequest_requests.
Qed.

Lemma LogsFromUnstructured_error_propagation_witness :
  LogsFromUnstructured Demo.lrb false [Some FollowLogs] = ([], Some "no pods found")
  /\ snd (LogsFromUnstructured Demo.lrb true []) = None.
Proof.
  split.
  - exact (LogsFromUnstructured_error_propagation
             Demo.lrb false [Some FollowLogs] [] (Some "no pods found") eq_refl).
  - rewrite (LogsFromUnstructured_error_propagation
               Demo.lrb true [] [mkPodList [Demo.podA; Demo.podB]] None eq_refl).
    reflexivity.
Defined.

Lemma Demo_run :
  run Demo.Stream Demo.Close Demo.ResourceId Demo.storage "/tmp/logs"
      Demo.sched (init Demo.requests []) = Some Demo.final.
Proof. vm_compute. reflexivity. Qed.

Lemma Demo_save :
  SaveLogs Demo.Stream Demo.Close Demo.ResourceId Demo.storage "/tmp/logs"
           Demo.requests [] Demo.sched
  = Some (Some "transport error", Demo.final).
Proof. vm_compute. reflexivity. Qed.

Lemma Double_run :
  run Double.Stream Double.Close Demo.ResourceId Double.storage "/tmp/logs"
      Demo.sched (init Demo.requests (Double.mkWorld 0 0 0)) = Some Double.final.
Proof. vm_compute. reflexivity. Qed.

Lemma Double_save :
  SaveLogs Double.Stream Double.Close Demo.ResourceId Double.storage "/tmp/logs"
           Demo.requests (Double.mkWorld 0 0 0) Demo.sched
  = Some (Some "transport error", Double.final).
Proof. vm_compute. reflexivity. Qed.

Lemma SaveLogs_fail_soft_witness :
  count is_save (trace Double.final) = 4 - count is_open_fail (trace Double.final)
  /\ count is_open_fail (trace Double.final) = 1
  /\ count is_return (trace Double.final) = 4
  /\ Some "transport error" = first_error (trace Double.final)
  /\ Double.saved (world Double.final)
     = 0 + (4 - count is_open_fail (trace Double.final))
  /\ Double.saved (world Double.final) = 3.
Proof.
  destruct (proj2 (SaveLogs_fail_soft Double.Stream Double.Close Demo.ResourceId
                     Double.storage "/tmp/logs" Demo.requests
                     (Double.mkWorld 0 0 0))
                  Demo.sched (Some "transport error") Double.final Double_save)
    as (_ & Hsave & Hret & _ & Herr & _ & _ & _ & _ & Hobs).
  split; [exact Hsave|]. split; [reflexivity|].
  split; [exact Hret|]. split; [exact Herr|]. split; [|reflexivity].
  apply (Hobs Double.saved).
  - intros r w1. unfold Double.Stream.
    destruct (String.eqb (Container (snd r)) "sidecar"); reflexivity.
  - intros location' obj w1. reflexivity.
  - intros reader w1. reflexivity.
Defined.

Lemma SaveLogs_closes_each_stream_once_witness :
  (Double.opened (world Double.final) = 0 + count is_open (trace Double.final)
   /\ Double.closed (world Double.final) = 0 + count is_close (trace Double.final)
   /\ count is_close (trace Double.final) = count is_open (trace Double.final)
   /\ Double.closed (world Double.final) = 3)
  /\ count is_close (history 0 (trace Double.final))
     <= count is_open (history 0 (trace Double.final))
  /\ count is_close (history 1 (trace Double.final)) = 0
  /\ ((exists reader err,
          history 0 (trace Double.final)
          = [EvOpen 0 reader;
             EvSave 0 "/tmp/logs" (mkStorageObject reader "web") err;
             EvClose 0 reader; EvReturn 0 err])
      \/ (exists e, history 0 (trace Double.final)
                    = [EvOpenFail 0 e; EvReturn 0 (Some e)])).
Proof.
  destruct (SaveLogs_closes_each_stream_once Double.Stream Double.Close
              Demo.ResourceId Double.storage "/tmp/logs" Demo.requests
              (Double.mkWorld 0 0 0) Demo.sched Double.final Double_run)
    as (_ & Hobs & H).
  split.
  - destruct (Hobs Double.opened Double.closed) as (Ho & Hcl & _ & Heq).
    + intros r w1. unfold Double.Stream.
      destruct (String.eqb (Container (snd r)) "sidecar"); reflexivity.
    + intros location' obj w1. reflexivity.
    + intros reader w1. reflexivity.
    + intros r w1. unfold Double.Stream.
      destruct (String.eqb (Container (snd r)) "sidecar"); reflexivity.
    + intros location' obj w1. reflexivity.
    + intros reader w1. reflexivity.
    + split; [exact Ho|]. split; [exact Hcl|].
      split; [exact (Heq (Some "transport error") eq_refl) | reflexivity].
  - destruct (H 0 _ eq_refl) as (_ & Hle & _ & Hdone).
    destruct (H 1 _ eq_refl) as (_ & _ & Hfail & _).
    split; [exact Hle|]. split.
    + apply (Hfail "transport error"). vm_compute.
      repeat (first [left; reflexivity | right]).
    + exact (Hdone (Some "transport error") eq_refl).
Defined.

Lemma SaveLogs_no_requests_no_calls_witness :
  (@None error = None
   /\ trace (@init Demo.Request Demo.Reader Demo.World [] []) = []
   /\ world (@init Demo.Request Demo.Reader Demo.World [] []) = [])
  /\ ~ In (EvSave 1 "/tmp/logs" (mkStorageObject "sidecar" "sidecar") None)
          (trace Demo.final).
Proof.
  pose proof (SaveLogs_no_requests_no_calls Demo.Stream Demo.Close
                Demo.ResourceId Demo.storage "/tmp/logs" [])
    as (_ & Hempty & Hfail).
  split.
  - exact (Hempty [] None (init [] []) eq_refl).
  - apply (Hfail Demo.requests Demo.sched Demo.final 1 "transport error" Demo_run).
    vm_compute. repeat (first [left; reflexivity | right]).
Defined.

(** C7, as stated, fails: a caller that gives up before the first step of
    the call (k = 0) has no means to say so, and the run still makes the
    Stream call of both requests, none of which had started. *)
Lemma SaveLogs_opens_after_cancellation :
  Demo.save Demo.sched1 Demo.one <> None
  /\ stream_calls_from Demo.Stream Demo.Close Demo.ResourceId Demo.storage
       "/tmp/logs" 0 Demo.sched1 (init Demo.one []) = Some 2
  /\ stream_calls_from Demo.Stream Demo.Close Demo.ResourceId Demo.storage
       "/tmp/logs" 0 Demo.sched1 (init Demo.one []) <> Some 0.
Proof.
  split; [|split].
  - vm_compute. discriminate.
  - vm_compute. reflexivity.
  - vm_compute. discriminate.
Qed.

Lemma SaveLogs_takes_no_cancellation_witness :
  exists s1 later,
    run Double.Stream Double.Close Demo.ResourceId Double.storage "/tmp/logs"
        (take 3 Demo.sched) (init Demo.requests (Double.mkWorld 0 0 0)) = Some s1
    /\ stream_calls_from Double.Stream Double.Close Demo.ResourceId Double.storage
         "/tmp/logs" 3 Demo.sched (init Demo.requests (Double.mkWorld 0 0 0))
       = Some (length (todo s1) + standing at_started (goroutines s1))
    /\ count is_stream_call (trace Double.final) = length Demo.requests
    /\ trace Double.final = trace s1 ++ later
    /\ performed Double.Stream Double.Close Double.storage Demo.requests
                 later (world s1) (world Double.final)
    /\ ((exists reader err,
            history 3 (trace Double.final)
            = [EvOpen 3 reader;
               EvSave 3 "/tmp/logs" (mkStorageObject reader "migrate") err;
               EvClose 3 reader; EvReturn 3 err])
        \/ (exists e, history 3 (trace Double.final)
                      = [EvOpenFail 3 e; EvReturn 3 (Some e)])).
Proof.
  destruct (SaveLogs_takes_no_cancellation Double.Stream Double.Close
              Demo.ResourceId Double.storage "/tmp/logs" Demo.requests
              (Double.mkWorld 0 0 0) Demo.sched (Some "transport error")
              Double.final 3 Double_save)
    as (s1 & later & Hrun & Hcalls & Hn & _ & _ & Ht & Hp & Hreq).
  exists s1, later.
  split; [exact Hrun|]. split; [exact Hcalls|]. split; [exact Hn|].
  split; [exact Ht|]. split; [exact Hp|].
  exact (proj1 (Hreq 3 _ eq_refl)).
Defined.

(** ** The collector's entry points *)

Section CollectorFacts.

Context {Request UnstructuredResources Manifests : Type}.
Variable ResourceList : Manifests -> UnstructuredResources * option error.

(** X4: GetLogRequestsFromManifest returns the error of ResourceList, or else
    that of the pod finder, unchanged and with no requests; only when both
    succeed does it return requests, those of every pod the finder
    returned, in order, built without options. *)
Theorem GetLogRequestsFromManifest_result
    (lc : logCollector Request UnstructuredResources) manifests
    resources err1 pods err2 :
  ResourceList manifests = (resources, err1) ->
  GetPods (podFinder (logRequestBuilder _ _ lc)) resources = (pods, err2) ->
  GetLogRequestsFromManifest ResourceList lc manifests
  = (match err1, err2 with
     | None, None =>
         concat (map (fun podList =>
                        concat (map (fun pod => buildLogsRequest
                                                  (logRequestBuilder _ _ lc) pod [])
                                    (Items podList)))
                     pods)
     | _, _ => []
     end,
     match err1 with Some e => Some e | None => err2 end).
Proof.
  intros H1 H2. unfold GetLogRequestsFromManifest, LogsFromUnstructured.
  rewrite H1. destruct err1 as [e1|]; [done|].
  rewrite H2. destruct err2 as [e2|]; [done|].
  rewrite foldl_app_flat. simpl. do 2 f_equal.
  apply map_ext. intros podList. apply RetrieveLogs_requests.
Qed.

End CollectorFacts.

(** ** changelogutils *)

Section ChangelogFacts.

Variable Join : string -> string -> string.
Variable ReadDir : string -> list FileInfo * option error.
Variable MatchesRegex : string -> bool.
Variable IsGreaterThanTag : string -> string -> bool * option error.

Local Abbreviation scan' := (scan_subDirs MatchesRegex IsGreaterThanTag).
Local Abbreviation GetProposedTagLocal' :=
  (GetProposedTagLocal Join ReadDir MatchesRegex IsGreaterThanTag).
Local Abbreviation entry_ok' := (entry_ok MatchesRegex IsGreaterThanTag).
Local Abbreviation greater_names' := (greater_names IsGreaterThanTag).

Lemma entry_ok_inv latestTag subDir :
  entry_ok' latestTag subDir = true ->
  IsDir subDir = true /\ MatchesRegex (FName subDir) = true
  /\ exists greaterThan,
       IsGreaterThanTag (FName subDir) latestTag = (greaterThan, None).
Proof.
  unfold entry_ok. intros H.
  apply andb_prop in H as [H H3]. apply andb_prop in H as [H1 H2].
  split; [done|]. split; [done|].
  destruct (IsGreaterThanTag (FName subDir) latestTag) as [b [e|]]; [done|].
  by exists b.
Qed.

(** What the loop returns over entries that are all in order. *)
Lemma scan_subDirs_ok latestTag subDirs proposedVersion :
  MatchesRegex "" = false ->
  forallb (entry_ok' latestTag) subDirs = true ->
  scan' latestTag subDirs proposedVersion
  = match greater_names' latestTag subDirs with
    | [] => (proposedVersion, None)
    | g :: gs =>
        if String.eqb proposedVersion "" then
          match gs with
          | [] => (g, None)
          | g2 :: _ =>
              ("", Some ("Versions " ++ g2 ++ " and " ++ g
                         ++ " are both greater than latest tag")%string)
          end
        else
          ("", Some ("Versions " ++ g ++ " and " ++ proposedVersion
                     ++ " are both greater than latest tag")%string)
    end.
Proof.
  intros Hempty. revert proposedVersion.
  induction subDirs as [|subDir rest IH]; intros proposedVersion Hok; [done|].
  simpl in Hok. apply andb_prop in Hok as [Hd Hrest].
  destruct (entry_ok_inv _ _ Hd) as (Hdir & Hname & greaterThan & Hgt).
  assert (Hne : String.eqb (FName subDir) "" = false).
  { apply String.eqb_neq. intros E. rewrite E in Hname. congruence. }
  unfold greater_names. simpl. rewrite Hdir, Hname, Hgt. simpl.
  destruct greaterThan.
  - destruct (String.eqb proposedVersion ""); simpl; [|done].
    rewrite (IH _ Hrest), Hne. unfold greater_names.
    by destruct (List.filter _ (map FName rest)).
  - apply (IH _ Hrest).
Qed.

(** One entry out of order makes the loop return an error. *)
Lemma scan_subDirs_bad latestTag subDirs proposedVersion :
  forallb (entry_ok' latestTag) subDirs = false ->
  exists e, scan' latestTag subDirs proposedVersion = ("", Some e).
Proof.
  revert proposedVersion.
  induction subDirs as [|subDir rest IH]; intros proposedVersion Hbad; [done|].
  simpl in Hbad. simpl.
  destruct (IsDir subDir) eqn:Hdir; simpl; [|by eexists].
  destruct (MatchesRegex (FName subDir)) eqn:Hname; simpl; [|by eexists].
  destruct (IsGreaterThanTag (FName subDir) latestTag) as [greaterThan [e|]] eqn:Hgt;
    [by eexists|].
  assert (Hrest : forallb (entry_ok' latestTag) rest = false).
  { unfold entry_ok in Hbad at 1. by rewrite Hdir, Hname, Hgt in Hbad. }
  destruct greaterThan; [|by apply IH].
  destruct (String.eqb proposedVersion ""); simpl; [by apply IH|by eexists].
Qed.

(** X9: under the one assumption that the empty name is not a version name:
    GetProposedTagLocal returns a version, without error, exactly when the
    directory can be read, every entry is a directory with a version name
    that compares with the latest tag, and exactly one of them is greater
    than the latest tag; the version returned is that one. *)
Theorem GetProposedTagLocal_success latestTag changelogParentPath v :
  MatchesRegex "" = false ->
  (GetProposedTagLocal' latestTag changelogParentPath = (v, None)
   <-> exists subDirs,
         ReadDir (Join changelogParentPath "changelog") = (subDirs, None)
         /\ forallb (entry_ok' latestTag) subDirs = true
         /\ greater_names' latestTag subDirs = [v]).
Proof.
  intros Hempty. unfold GetProposedTagLocal, ChangelogDirectory.
  destruct (ReadDir (Join changelogParentPath "changelog")) as [subDirs [e|]].
  { split; [done|]. by intros (? & [=] & _). }
  destruct (forallb (entry_ok' latestTag) subDirs) eqn:Hok.
  - rewrite (scan_subDirs_ok _ _ _ Hempty Hok). simpl.
    assert (Hnames : Forall (fun n => n <> "") (greater_names' latestTag subDirs)).
    { apply Forall_forall. intros n Hn ->. apply list_elem_of_In in Hn.
      unfold greater_names in Hn. apply List.filter_In in Hn as [Hn _].
      apply in_map_iff in Hn as (d & Hd & Hin).
      rewrite forallb_forall in Hok.
      destruct (entry_ok_inv _ _ (Hok d Hin)) as (_ & Hm & _).
      rewrite Hd in Hm. congruence. }
    destruct (greater_names' latestTag subDirs) as [|g [|g2 gs]] eqn:Hg; simpl.
    + split; [done|]. intros (? & [= <-] & _ & Hv). rewrite Hg in Hv. done.
    + apply Forall_cons in Hnames as [Hne _].
      apply String.eqb_neq in Hne. rewrite Hne. split.
      * intros [= <-]. by exists subDirs.
      * intros (? & [= <-] & _ & Hv). rewrite Hg in Hv. by injection Hv as <-.
    + split; [done|]. intros (? & [= <-] & _ & Hv). rewrite Hg in Hv. done.
  - destruct (scan_subDirs_bad latestTag subDirs "" Hok) as [e ->].
    split; [done|]. intros (? & [= <-] & Hok' & _). congruence.
Qed.

(** X10: when every entry is in order and none is greater than the latest tag
    (an empty directory included), the call fails with the message that no
    greater version was found. *)
Theorem GetProposedTagLocal_none_greater latestTag changelogParentPath subDirs :
  ReadDir (Join changelogParentPath "changelog") = (subDirs, None) ->
  forallb (entry_ok' latestTag) subDirs = true ->
  greater_names' latestTag subDirs = [] ->
  GetProposedTagLocal' latestTag changelogParentPath
  = ("", Some ("No version greater than " ++ latestTag ++ " found")%string).
Proof.
  intros Hread Hok Hnone. unfold GetProposedTagLocal, ChangelogDirectory.
  rewrite Hread.
  assert (Hscan : forall p, scan' latestTag subDirs p = (p, None)).
  { clear Hread. induction subDirs as [|subDir rest IH]; intros p; [done|].
    simpl in Hok. apply andb_prop in Hok as [Hd Hrest].
    destruct (entry_ok_inv _ _ Hd) as (Hdir & Hname & greaterThan & Hgt).
    unfold greater_names in Hnone. simpl in Hnone. rewrite Hgt in Hnone.
    simpl in Hnone. simpl. rewrite Hdir, Hname, Hgt. simpl.
    destruct greaterThan; [done|]. by apply IH. }
  by rewrite Hscan.
Qed.

(** X11: when every entry is in order and at least two are greater than the
    latest tag, the call fails at the second of them, naming it and the
    first. *)
Theorem GetProposedTagLocal_two_greater
    latestTag changelogParentPath subDirs g1 g2 gs :
  MatchesRegex "" = false ->
  ReadDir (Join changelogParentPath "changelog") = (subDirs, None) ->
  forallb (entry_ok' latestTag) subDirs = true ->
  greater_names' latestTag subDirs = g1 :: g2 :: gs ->
  GetProposedTagLocal' latestTag changelogParentPath
  = ("", Some ("Versions " ++ g2 ++ " and " ++ g1
               ++ " are both greater than latest tag")%string).
Proof.
  intros Hempty Hread Hok Hg. unfold GetProposedTagLocal, ChangelogDirectory.
  rewrite Hread, (scan_subDirs_ok _ _ _ Hempty Hok), Hg. reflexivity.
Qed.

(** X12: an error never comes with a version, and a result without error is
    never the empty version. *)
Theorem GetProposedTagLocal_error_or_version latestTag changelogParentPath :
  match GetProposedTagLocal Join ReadDir MatchesRegex IsGreaterThanTag
                            latestTag changelogParentPath with
  | (v, Some _) => v = ""
  | (v, None) => v <> ""
  end.
Proof.
  unfold GetProposedTagLocal.
  destruct (ReadDir (Join changelogParentPath ChangelogDirectory))
    as [subDirs [e|]]; [done|].
  destruct (scan' latestTag subDirs "") as [v [e|]]; [done|].
  destruct (String.eqb v "") eqn:Hv; [done|]. by apply String.eqb_neq.
Qed.

End ChangelogFacts.

(** ** gcloudutils: dispatching a build to the handlers *)

Section CloudBuildFacts.

Context {Client Build World Handler : Type}.
Variable Id : Build -> string.
Variable CloudBuild :
  Handler -> Context Build -> Client -> Build -> World -> option error * World.
Variable HandleFailedSourceBuild :
  Context Build -> Build -> World -> option error * World.

Local Abbreviation HState' := (HState Client Build World Handler).
Local Abbreviation hstep' := (hstep Id CloudBuild).
Local Abbreviation hrun' := (hrun Id CloudBuild).
Local Abbreviation hconsistent' := (@hconsistent Client Build Id World Handler).
Local Abbreviation hcalls_at' := (@hcalls_at Client Build Id World Handler).

Implicit Types (s : HState') (g : hroutine Handler) (sched : list action).
Implicit Types (t : list (hevent Client Build Handler)).

Lemma hhistory_app i t1 t2 :
  hhistory i (t1 ++ t2) = hhistory i t1 ++ hhistory i t2.
Proof. unfold hhistory. apply List.filter_app. Qed.

Lemma hhistory_In i t ev : In ev t -> hev_id ev = i -> In ev (hhistory i t).
Proof.
  intros Hin Hid. unfold hhistory. apply List.filter_In. split; [done|].
  by apply Nat.eqb_eq.
Qed.

Lemma hremaining_insert (gs : list (hroutine Handler)) i g g' :
  gs !! i = Some g ->
  list_sum (map (fun g => hremaining (hpc g)) (<[i := g']> gs)) + hremaining (hpc g)
  = list_sum (map (fun g => hremaining (hpc g)) gs) + hremaining (hpc g').
Proof.
  revert i. induction gs as [|a gs IH]; intros [|i] H; simpl in *; try done.
  - injection H as ->. lia.
  - specialize (IH i H). lia.
Qed.

Lemma eventHandler_insert (gs : list (hroutine Handler)) i g p :
  gs !! i = Some g ->
  map eventHandler (<[i := mkHroutine (eventHandler g) p]> gs) = map eventHandler gs.
Proof.
  revert i. induction gs as [|a gs IH]; intros [|i] H; simpl in *; try done.
  - by injection H as ->.
  - by rewrite IH.
Qed.

(** A step changes neither the context nor the client nor the build the
    closures share. *)
Lemma hstep_shared a s s' :
  hstep' a s = Some s' ->
  hctx s' = hctx s /\ hclient s' = hclient s /\ hbuild s' = hbuild s.
Proof.
  intros H. destruct a as [|i]; simpl in H.
  - destruct (htodo s); [done|]. by injection H as <-.
  - destruct (hroutines s !! i) as [g|]; [|done].
    destruct (hpc g) as [|[err|]|]; [| | |done].
    + destruct (CloudBuild _ _ _ _ _). by injection H as <-.
    + by injection H as <-.
    + by injection H as <-.
Qed.

Lemma hcalls_at_shared s s' i g h :
  hctx s' = hctx s -> hclient s' = hclient s -> hbuild s' = hbuild s ->
  hcalls_at' s i g h -> hcalls_at' s' i g h.
Proof. unfold hcalls_at. by intros -> -> ->. Qed.

(** The history of goroutine [i] grows by [evs], those of the others stay. *)
Lemma hhistory_move s s' i g p evs :
  hroutines s !! i = Some g ->
  hctx s' = hctx s -> hclient s' = hclient s -> hbuild s' = hbuild s ->
  hroutines s' = <[i := mkHroutine (eventHandler g) p]> (hroutines s) ->
  htrace s' = htrace s ++ evs ->
  Forall (fun ev => hev_id ev = i) evs ->
  hcalls_at' s i (mkHroutine (eventHandler g) p) (hhistory i (htrace s) ++ evs) ->
  (forall j, match hroutines s !! j with
             | Some g => hcalls_at' s j g (hhistory j (htrace s))
             | None => hhistory j (htrace s) = []
             end) ->
  forall j, match hroutines s' !! j with
            | Some g => hcalls_at' s' j g (hhistory j (htrace s'))
            | None => hhistory j (htrace s') = []
            end.
Proof.
  intros Hg Hc Hcl Hb Hgs Ht Hevs Hnew Hold j. rewrite Hgs, Ht, hhistory_app.
  destruct (decide (j = i)) as [->|Hne].
  - rewrite list_lookup_insert_eq by (by eapply lookup_lt_Some).
    apply (hcalls_at_shared s); try done.
    replace (hhistory i evs) with evs; [done|].
    unfold hhistory. clear -Hevs. induction Hevs as [|ev evs Hev _ IH]; [done|].
    simpl. rewrite Hev, Nat.eqb_refl. by f_equal.
  - rewrite list_lookup_insert_ne by done.
    replace (hhistory j evs) with (@nil (hevent Client Build Handler)).
    + rewrite app_nil_r. specialize (Hold j).
      destruct (hroutines s !! j); [|done]. by apply (hcalls_at_shared s).
    + unfold hhistory. clear -Hevs Hne.
      induction Hevs as [|ev evs Hev _ IH]; [done|]. simpl.
      replace (Nat.eqb (hev_id ev) j) with false; [done|].
      symmetry. apply Nat.eqb_neq. congruence.
Qed.

Lemma hconsistent_step handlers a s s' :
  hconsistent' handlers s -> hstep' a s = Some s' -> hconsistent' handlers s'.
Proof.
  intros [Hh Hhist] Hstep.
  destruct a as [|i]; simpl in Hstep.
  - destruct (htodo s) as [|handler rest] eqn:Htodo; [done|].
    injection Hstep as <-. split; simpl.
    + rewrite map_app, <- app_assoc. simpl. by rewrite <- Hh.
    + intros i. specialize (Hhist i).
      destruct (decide (i < length (hroutines s))) as [Hlt|Hge].
      * rewrite lookup_app_l by done.
        destruct (hroutines s !! i); [|done]. exact Hhist.
      * rewrite lookup_ge_None_2 in Hhist by lia.
        rewrite lookup_app_r by lia.
        destruct (i - length (hroutines s)) as [|k]; simpl; exact Hhist.
  - destruct (hroutines s !! i) as [g|] eqn:Hg; [|done].
    pose proof (Hhist i) as Hi. rewrite Hg in Hi. unfold hcalls_at in Hi.
    destruct (hpc g) as [|[err|]|] eqn:Hpc; [| | |done].
    + destruct (CloudBuild (eventHandler g) (hctx s) (hclient s) (hbuild s) (hworld s))
        as [err w].
      injection Hstep as <-. split.
      * simpl. by rewrite eventHandler_insert.
      * eapply (hhistory_move s _ i g);
          [exact Hg | reflexivity.. | by repeat constructor | | exact Hhist].
        unfold hcalls_at. simpl. by rewrite Hi.
    + injection Hstep as <-. split.
      * simpl. by rewrite eventHandler_insert.
      * eapply (hhistory_move s _ i g);
          [exact Hg | reflexivity.. | by repeat constructor | | exact Hhist].
        unfold hcalls_at. simpl. rewrite Hi. right. by eexists.
    + injection Hstep as <-. split.
      * simpl. by rewrite eventHandler_insert.
      * eapply (hhistory_move s _ i g);
          [exact Hg | reflexivity.. | by constructor | | exact Hhist].
        unfold hcalls_at. simpl. rewrite Hi. by left.
Qed.

Lemma hconsistent_run handlers sched s s' :
  hconsistent' handlers s -> hrun' sched s = Some s' -> hconsistent' handlers s'.
Proof.
  revert s. induction sched as [|a sched IH]; intros s Hs Hrun; simpl in Hrun.
  - by injection Hrun as <-.
  - destruct (hstep' a s) as [s1|] eqn:Hstep; [|done].
    eapply IH; [|exact Hrun]. by eapply hconsistent_step.
Qed.

Lemma hrun_shared sched s s' :
  hrun' sched s = Some s' ->
  hctx s' = hctx s /\ hclient s' = hclient s /\ hbuild s' = hbuild s.
Proof.
  revert s. induction sched as [|a sched IH]; intros s Hrun; simpl in Hrun.
  - by injection Hrun as <-.
  - destruct (hstep' a s) as [s1|] eqn:Hstep; [|done].
    destruct (hstep_shared _ _ _ Hstep) as (H1 & H2 & H3).
    destruct (IH _ Hrun) as (H1' & H2' & H3'). repeat split; congruence.
Qed.

Lemma hrun_app sched1 sched2 s :
  hrun' (sched1 ++ sched2) s
  = match hrun' sched1 s with Some s1 => hrun' sched2 s1 | None => None end.
Proof.
  revert s. induction sched1 as [|a sched1 IH]; intros s; simpl; [done|].
  destruct (hstep' a s); [apply IH|done].
Qed.

Lemma hstep_fuel a s s' : hstep' a s = Some s' -> hfuel s' < hfuel s.
Proof.
  intros Hstep. unfold hfuel. destruct a as [|i]; simpl in Hstep.
  - destruct (htodo s) as [|handler rest]; [done|].
    injection Hstep as <-. simpl. rewrite map_app, list_sum_app. simpl. lia.
  - destruct (hroutines s !! i) as [g|] eqn:Hg; [|done].
    destruct (hpc g) as [|[err|]|] eqn:Hpc; [| | |done].
    + destruct (CloudBuild _ _ _ _ _) as [err w]. injection Hstep as <-. simpl.
      match goal with |- context [<[i := ?g']> _] =>
        pose proof (hremaining_insert _ _ _ g' Hg) as H end.
      rewrite Hpc in H; simpl in H; lia.
    + injection Hstep as <-. simpl.
      match goal with |- context [<[i := ?g']> _] =>
        pose proof (hremaining_insert _ _ _ g' Hg) as H end.
      rewrite Hpc in H; simpl in H; lia.
    + injection Hstep as <-. simpl.
      match goal with |- context [<[i := ?g']> _] =>
        pose proof (hremaining_insert _ _ _ g' Hg) as H end.
      rewrite Hpc in H; simpl in H; lia.
Qed.

Lemma hrun_fuel sched s s' :
  hrun' sched s = Some s' -> length sched + hfuel s' <= hfuel s.
Proof.
  revert s. induction sched as [|a sched IH]; intros s Hrun; simpl in *.
  - injection Hrun as <-. lia.
  - destruct (hstep' a s) as [s1|] eqn:Hstep; [|done].
    apply hstep_fuel in Hstep. apply IH in Hrun. lia.
Qed.

Lemma hroutine_enabled s i g :
  hroutines s !! i = Some g -> hpc g <> HDone -> is_Some (hstep' (Run i) s).
Proof.
  intros Hg Hpc. simpl. rewrite Hg.
  destruct (hpc g) as [|[err|]|]; [| | |done]; [|done|done].
  by destruct (CloudBuild _ _ _ _ _).
Qed.

Lemma not_quiescent s : quiescent s = false -> exists a, is_Some (hstep' a s).
Proof.
  unfold quiescent. destruct (htodo s) as [|handler rest] eqn:Htodo.
  - intros Hall.
    assert (exists i g, hroutines s !! i = Some g /\ hpc g <> HDone)
      as (i & g & Hi & Hg).
    { clear Htodo. induction (hroutines s) as [|g gs IH]; simpl in *; [done|].
      destruct (hdone g) eqn:Hd; simpl in Hall.
      - destruct (IH Hall) as (i & g' & Hi & Hg'). by exists (S i), g'.
      - exists 0, g. split; [done|]. unfold hdone in Hd. by destruct (hpc g). }
    exists (Run i). by eapply hroutine_enabled.
  - intros _. exists Go. simpl. by rewrite Htodo.
Qed.

Lemma hrun_completes s :
  exists sched s', hrun' sched s = Some s' /\ quiescent s' = true.
Proof.
  remember (hfuel s) as n eqn:Hn. revert s Hn.
  induction n as [n IH] using lt_wf_ind. intros s ->.
  destruct (quiescent s) eqn:Hq.
  - by exists [], s.
  - destruct (not_quiescent _ Hq) as [a [s1 Hstep]].
    destruct (IH (hfuel s1) (hstep_fuel _ _ _ Hstep) s1 eq_refl)
      as (sched & s' & Hrun & Hq').
    exists (a :: sched), s'. simpl. by rewrite Hstep.
Qed.

Lemma quiescent_done s i g :
  quiescent s = true -> hroutines s !! i = Some g -> hpc g = HDone.
Proof.
  unfold quiescent. destruct (htodo s); [|done]. intros Hall Hi.
  rewrite forallb_forall in Hall.
  assert (Hin : In g (hroutines s)).
  { apply list_elem_of_In. apply list_elem_of_lookup. by exists i. }
  specialize (Hall g Hin). unfold hdone in Hall. by destruct (hpc g).
Qed.

Local Abbreviation event_ctx ctx build :=
  (ctx ++ [FString "trigger" "cloud-build"; FString "build_id" (Id build)]).
Local Abbreviation HandleCloudBuildEvent' :=
  (HandleCloudBuildEvent Id HandleFailedSourceBuild).

Lemma HandleCloudBuildEvent_consistent ctx registry client build w :
  hconsistent' (htodo (HandleCloudBuildEvent' ctx registry client build w))
               (HandleCloudBuildEvent' ctx registry client build w).
Proof.
  unfold HandleCloudBuildEvent.
  destruct (HandleFailedSourceBuild _ build w) as [[e|] w']; by split.
Qed.


(** X14: when HandleFailedSourceBuild returns an error, no handler is ever
    called and nothing is logged: the loop is not entered, so the only run is
    the empty one. *)
Theorem HandleCloudBuildEvent_failed_source
    ctx registry client build w e w' sched s :
  HandleFailedSourceBuild (event_ctx ctx build) build w = (Some e, w') ->
  hrun' sched (HandleCloudBuildEvent' ctx registry client build w) = Some s ->
  sched = [] /\ htrace s = [] /\ hroutines s = [] /\ hworld s = w'
  /\ quiescent s = true.
Proof.
  intros Hsrc Hrun. unfold HandleCloudBuildEvent in Hrun. rewrite Hsrc in Hrun.
  destruct sched as [|[|i] sched]; simpl in Hrun; [|done|done].
  by injection Hrun as <-.
Qed.

End CloudBuildFacts.

Section MessageFacts.

Context {Client Build World Handler ClientCreator : Type}.
Variable Id : Build -> string.
Variable ProjectId : Build -> string.
Variable Tags : Build -> list string.
Variable HandleFailedSourceBuild :
  Context Build -> Build -> World -> option error * World.
Variable Unmarshal : string -> Build + error.
Variable GetInstallationId : list string -> Z.
Variable NewInstallationClient :
  ClientCreator -> Z -> World -> (Client + error) * World.

Local Abbreviation handleCloudBuildEvent' :=
  (handleCloudBuildEvent Id ProjectId Tags HandleFailedSourceBuild Unmarshal
                         GetInstallationId NewInstallationClient).
Local Abbreviation installation cs cbm :=
  (if Z.eqb (GetInstallationId (Tags cbm)) 0 then cfgInstallationId cs
   else GetInstallationId (Tags cbm)).

(** X15: handleCloudBuildEvent returns early, with exactly one error logged as
    its last entry and no handler dispatched, when the message is empty, when
    it does not unmarshal, or when no client can be made for the
    installation; in the first two cases the world is untouched.  Otherwise
    it logs no error and hands the build to HandleCloudBuildEvent with the
    client of the installation, which is the one in the build's tags, or the
    configured one when the tags give 0. *)
Theorem handleCloudBuildEvent_outcome
    (cs : CloudSubscriberCore Handler ClientCreator) ctx data w :
  match handleCloudBuildEvent' cs ctx data w with
  | (log, inl w') =>
      (exists before entry,
          log = before ++ [entry] /\ level entry = ErrorLevel
          /\ Forall (fun e => level e <> ErrorLevel) before)
      /\ ((data = "" /\ w' = w)
          \/ (data <> "" /\ (exists err, Unmarshal data = inr err) /\ w' = w)
          \/ (data <> ""
              /\ exists cbm err,
                   Unmarshal data = inl cbm
                   /\ NewInstallationClient (githubClientCreator cs)
                                            (installation cs cbm) w
                      = (inr err, w')))
  | (log, inr s) =>
      Forall (fun e => level e <> ErrorLevel) log
      /\ data <> ""
      /\ exists cbm githubClient w',
           Unmarshal data = inl cbm
           /\ NewInstallationClient (githubClientCreator cs)
                                    (installation cs cbm) w
              = (inl githubClient, w')
           /\ s = HandleCloudBuildEvent Id HandleFailedSourceBuild
                     (ctx ++ [FString "project-id" (ProjectId cbm);
                              FString "build-id" (Id cbm)])
                     (registry cs) githubClient cbm w'
  end.
Proof.
  unfold handleCloudBuildEvent.
  destruct (String.eqb data "") eqn:Hdata.
  { apply String.eqb_eq in Hdata. split; [|by left].
    eexists [], _. by repeat split. }
  apply String.eqb_neq in Hdata.
  destruct (Unmarshal data) as [cbm|err] eqn:Hun.
  2:{ split; [|right; left; by eauto]. eexists [], _. by repeat split. }
  destruct (Z.eqb (GetInstallationId (Tags cbm)) 0) eqn:Hz;
    [destruct (NewInstallationClient (githubClientCreator cs)
                 (cfgInstallationId cs) w) as [[githubClient|err] w'] eqn:Hnew
    |destruct (NewInstallationClient (githubClientCreator cs)
                 (GetInstallationId (Tags cbm)) w) as [[githubClient|err] w'] eqn:Hnew].
  - split; [by repeat constructor|]. split; [done|].
    exists cbm, githubClient, w'. by rewrite Hz.
  - split.
    + eexists [_; _], _. split; [reflexivity|]. split; [done|].
      by repeat constructor.
    + right; right. split; [done|]. exists cbm, err. by rewrite Hz.
  - split; [by repeat constructor|]. split; [done|].
    exists cbm, githubClient, w'. by rewrite Hz.
  - split.
    + eexists [_], _. split; [reflexivity|]. split; [done|].
      by repeat constructor.
    + right; right. split; [done|]. exists cbm, err. by rewrite Hz.
Qed.

End MessageFacts.

Section SubscriberFacts.

Context {Build World Handler ClientCreator BuildService PubsubClient
         PubsubTopic PubsubSubscription BotConfig Status : Type}.
Variable NewCloudBuildClient : string -> World -> (BuildService * option error) * World.
Variable NewPubSubClient : string -> World -> (PubsubClient * option error) * World.
Variable Topic : PubsubClient -> string -> PubsubTopic.
Variable Subscription : PubsubClient -> string -> PubsubSubscription.
Variable CreateSubscription :
  PubsubClient -> string -> PubsubTopic -> World
  -> (PubsubSubscription * option error) * World.
Variable FromError : error -> Status * bool.
Variable Message : Status -> string.

Local Abbreviation NewCloudSubscriber' :=
  (NewCloudSubscriber Build World Handler ClientCreator BuildService PubsubClient
                      PubsubTopic PubsubSubscription BotConfig Status
                      NewCloudBuildClient NewPubSubClient Topic Subscription
                      CreateSubscription FromError Message).

(** X16: NewCloudSubscriber fails exactly when the pubsub client cannot be made,
    or when creating the subscription fails with a gRPC status whose message
    is not the already-exists message; the error is then the one it received
    and no subscriber is returned.  An error of the build client is never
    returned and the first entry is logged all the same; any other failure to
    create the subscription falls back on the subscription of that id.  A
    subscriber it returns holds the build service as received and an empty
    registry. *)
Theorem NewCloudSubscriber_outcome
    ctx cfg githubClientCreator projectId subscriptionId w
    buildService err0 w1 pubsubClient err1 w2 cloudBuildSub err2 w3 :
  NewCloudBuildClient projectId w = ((buildService, err0), w1) ->
  NewPubSubClient projectId w1 = ((pubsubClient, err1), w2) ->
  CreateSubscription pubsubClient subscriptionId (Topic pubsubClient TOPIC) w2
  = ((cloudBuildSub, err2), w3) ->
  exists cs err log w',
    NewCloudSubscriber' ctx cfg githubClientCreator projectId subscriptionId w
    = (cs, err, log, w')
    /\ (forall e,
          err = Some e
          <-> err1 = Some e
              \/ (err1 = None /\ err2 = Some e /\ snd (FromError e) = true
                  /\ Message (fst (FromError e)) <> alreadyExistsError))
    /\ match err, cs with
       | Some _, None => True
       | None, Some c =>
           cs_buildService c = buildService
           /\ cs_cloudBuildSub c
              = match err2 with
                | None => cloudBuildSub
                | Some _ => Subscription pubsubClient subscriptionId
                end
           /\ eventHandlers (cs_registry c) = []
           /\ w' = w3
       | _, _ => False
       end
    /\ exists rest,
         log = logw ctx InfoLevel "successfully created build service for pubsub"
                    [FString "projectId" projectId] :: rest.
Proof.
  intros H0 H1 H2. unfold NewCloudSubscriber. rewrite H0, H1.
  destruct err1 as [e1|].
  { do 4 eexists. split; [reflexivity|]. split; [|split; [done|by eexists]].
    intros e. split; [intros [= <-]; by left|].
    intros [[= <-]|(? & _)]; done. }
  rewrite H2. destruct err2 as [e2|].
  - destruct (FromError e2) as [grpcErr ok] eqn:Hfrom.
    destruct ok; simpl.
    + destruct (String.eqb (Message grpcErr) alreadyExistsError) eqn:Hmsg; simpl.
      * apply String.eqb_eq in Hmsg.
        do 4 eexists. split; [reflexivity|]. split; [|split; [done|by eexists]].
        intros e. split; [done|].
        intros [[=]|(_ & [= <-] & _ & Hne)]. by rewrite Hfrom in Hne.
      * apply String.eqb_neq in Hmsg.
        do 4 eexists. split; [reflexivity|]. split; [|split; [done|by eexists]].
        intros e. split.
        -- intros [= <-]. right. by rewrite Hfrom.
        -- by intros [[=]|(_ & [= <-] & _)].
    + do 4 eexists. split; [reflexivity|]. split; [|split; [done|by eexists]].
      intros e. split; [done|].
      intros [[=]|(_ & [= <-] & Hok & _)]. by rewrite Hfrom in Hok.
  - do 4 eexists. split; [reflexivity|]. split; [|split; [done|by eexists]].
    intros e. split; [done|]. by intros [[=]|(_ & [=] & _)].
Qed.

End SubscriberFacts.

(** ** The further facts at work *)

Lemma buildLogsRequest_container_not_an_option_witness :
  buildLogsRequest Demo.lrb Demo.podB [Some FollowLogs]
  = buildLogsRequest Demo.lrb Demo.podB
      [Some FollowLogs; Some (set_Container "elsewhere")].
Proof.
  exact (buildLogsRequest_container_not_an_option Demo.lrb Demo.podB
           [Some FollowLogs] [Some FollowLogs; Some (set_Container "elsewhere")]
           eq_refl).
Defined.

Lemma GetLogRequestsFromManifest_result_witness :
  length (fst (GetLogRequestsFromManifest Demo.ResourceList
                 (NewLogCollector _ _ Demo.lrb) true)) = 4
  /\ GetLogRequestsFromManifest Demo.ResourceList
       (NewLogCollector _ _ Demo.lrb) false
     = ([], Some "no pods found").
Proof.
  split.
  - rewrite (GetLogRequestsFromManifest_result Demo.ResourceList
               (NewLogCollector _ _ Demo.lrb) true true None
               [mkPodList [Demo.podA; Demo.podB]] None eq_refl eq_refl).
    reflexivity.
  - exact (GetLogRequestsFromManifest_result Demo.ResourceList
             (NewLogCollector _ _ Demo.lrb) false false None
             [] (Some "no pods found") eq_refl eq_refl).
Defined.

Lemma SaveLogs_nil_iff_all_succeed_witness :
  exists i, In (EvOpenFail i "transport error") (trace Demo.final)
            \/ exists obj,
                 In (EvSave i "/tmp/logs" obj (Some "transport error"))
                    (trace Demo.final).
Proof.
  exact (proj2 (SaveLogs_nil_iff_all_succeed Demo.Stream Demo.Close
                  Demo.ResourceId Demo.storage "/tmp/logs" Demo.requests []
                  Demo.sched (Some "transport error") Demo.final Demo_save)
               "transport error" eq_refl).
Defined.

Lemma Demo_run_a :
  run Demo.Stream Demo.Close Demo.ResourceId Demo.storage "/tmp/logs"
      Demo.sched_a (init Demo.requests []) = Some Demo.middle.
Proof. vm_compute. reflexivity. Qed.

Lemma Demo_save_ab :
  SaveLogs Demo.Stream Demo.Close Demo.ResourceId Demo.storage "/tmp/logs"
           Demo.requests [] (Demo.sched_a ++ Demo.sched_b)
  = Some (Some "transport error", Demo.final).
Proof. vm_compute. reflexivity. Qed.

Lemma SaveLogs_first_error_wins_witness :
  eg_err Demo.middle = Some "transport error"
  /\ Some "transport error" = Some "transport error".
Proof.
  split; [reflexivity|].
  exact (SaveLogs_first_error_wins Demo.Stream Demo.Close Demo.ResourceId
           Demo.storage "/tmp/logs" Demo.requests [] Demo.sched_a Demo.sched_b
           Demo.middle "transport error" (Some "transport error") Demo.final
           Demo_run_a eq_refl Demo_save_ab).
Defined.

Lemma SaveLogs_call_arguments_witness :
  exists rest,
    history 0 (trace Demo.final)
    = EvOpen 0 "web" :: EvSave 0 "/tmp/logs" (mkStorageObject "web" "web") None
        :: rest.
Proof.
  destruct (proj1 (SaveLogs_call_arguments Demo.Stream Demo.Close Demo.ResourceId
                     Demo.storage "/tmp/logs" Demo.requests [] Demo.sched
                     Demo.final Demo_run)
                  0 "/tmp/logs" (mkStorageObject "web" "web") None)
    as (_ & _ & H).
  - vm_compute. repeat (first [left; reflexivity | right]).
  - exact H.
Defined.

Lemma Demo_save_migrate :
  SaveLogs Demo.Stream Demo.Close Demo.ResourceId Demo.storage "/tmp/logs"
           [Demo.migrate] [] [Go; Run 0; Run 0; Run 0; Run 0]
  = Some (None, Demo.final_migrate).
Proof. vm_compute. reflexivity. Qed.

Lemma SaveLogs_single_request_witness :
  @None error = None /\ world Demo.final_migrate = ["migrate"].
Proof.
  exact (SaveLogs_single_request Demo.Stream Demo.Close Demo.ResourceId
           Demo.storage "/tmp/logs" Demo.migrate [] [Go; Run 0; Run 0; Run 0; Run 0]
           None Demo.final_migrate Demo_save_migrate).
Defined.

Lemma GetProposedTagLocal_success_witness :
  GetProposedTagLocal DemoChangelog.Join DemoChangelog.ReadDir
    DemoChangelog.MatchesRegex DemoChangelog.IsGreaterThanTag "v0.2.0" "repo"
  = ("v0.3.0", None).
Proof.
  apply (GetProposedTagLocal_success DemoChangelog.Join DemoChangelog.ReadDir
           DemoChangelog.MatchesRegex DemoChangelog.IsGreaterThanTag
           "v0.2.0" "repo" "v0.3.0" eq_refl).
  eexists. split; [reflexivity|]. split; reflexivity.
Defined.

Lemma GetProposedTagLocal_none_greater_witness :
  GetProposedTagLocal DemoChangelog.Join DemoChangelog.ReadDir
    DemoChangelog.MatchesRegex DemoChangelog.IsGreaterThanTag "v0.3.0" "repo"
  = ("", Some "No version greater than v0.3.0 found")
  /\ GetProposedTagLocal DemoChangelog.Join DemoChangelog.ReadDir
       DemoChangelog.MatchesRegex DemoChangelog.IsGreaterThanTag "v0.3.0" "empty"
     = ("", Some "No version greater than v0.3.0 found").
Proof.
  split.
  - exact (GetProposedTagLocal_none_greater DemoChangelog.Join DemoChangelog.ReadDir
             DemoChangelog.MatchesRegex DemoChangelog.IsGreaterThanTag
             "v0.3.0" "repo" _ eq_refl eq_refl eq_refl).
  - exact (GetProposedTagLocal_none_greater DemoChangelog.Join DemoChangelog.ReadDir
             DemoChangelog.MatchesRegex DemoChangelog.IsGreaterThanTag
             "v0.3.0" "empty" [] eq_refl eq_refl eq_refl).
Defined.

Lemma GetProposedTagLocal_two_greater_witness :
  GetProposedTagLocal DemoChangelog.Join DemoChangelog.ReadDir
    DemoChangelog.MatchesRegex DemoChangelog.IsGreaterThanTag "v0.0.9" "repo"
  = ("", Some "Versions v0.2.0 and v0.1.0 are both greater than latest tag").
Proof.
  exact (GetProposedTagLocal_two_greater DemoChangelog.Join DemoChangelog.ReadDir
           DemoChangelog.MatchesRegex DemoChangelog.IsGreaterThanTag
           "v0.0.9" "repo" _ "v0.1.0" "v0.2.0" ["v0.3.0"]
           eq_refl eq_refl eq_refl eq_refl).
Defined.

Lemma DemoCloud_run :
  hrun (fun b => b) DemoCloud.CloudBuild DemoCloud.sched
       (HandleCloudBuildEvent (fun b => b) DemoCloud.HandleFailedSourceBuild []
                              (mkRegistry [0; 1; 2]) "client" "build-1" 0)
  = Some DemoCloud.final.
Proof. vm_compute. reflexivity. Qed.


Lemma HandleCloudBuildEvent_failed_source_witness :
  @nil action = [] /\
  htrace (HandleCloudBuildEvent (fun b => b) DemoCloud.HandleFailedSourceBuild []
            (mkRegistry [0; 1; 2]) "client" "failed-source" 0)
  = (@nil (hevent string string nat))
  /\ hroutines (HandleCloudBuildEvent (fun b => b) DemoCloud.HandleFailedSourceBuild []
                  (mkRegistry [0; 1; 2]) "client" "failed-source" 0)
     = []
  /\ hworld (HandleCloudBuildEvent (fun b => b) DemoCloud.HandleFailedSourceBuild []
               (mkRegistry [0; 1; 2]) "client" "failed-source" 0)
     = 0
  /\ quiescent (HandleCloudBuildEvent (fun b => b) DemoCloud.HandleFailedSourceBuild []
                  (mkRegistry [0; 1; 2]) "client" "failed-source" 0)
     = true.
Proof.
  exact (HandleCloudBuildEvent_failed_source
           (fun b => b) DemoCloud.CloudBuild DemoCloud.HandleFailedSourceBuild
           [] (mkRegistry [0; 1; 2]) "client" "failed-source" 0
           "source fetch failed" 0 [] _ eq_refl eq_refl).
Defined.

Lemma NewCloudSubscriber_outcome_witness :
  exists cs err log w',
    NewCloudSubscriber string nat nat unit string string string string unit string
      DemoCloud.NewCloudBuildClient DemoCloud.NewPubSubClient
      (fun client id => id) (fun client id => id)
      DemoCloud.CreateSubscription DemoCloud.FromError (fun st => st)
      [] tt tt "down" "taken" 0
    = (cs, err, log, w')
    /\ err = None
    /\ match cs with
       | Some c => cs_cloudBuildSub c = "taken" /\ cs_buildService c = ""
       | None => False
       end.
Proof.
  destruct (NewCloudSubscriber_outcome (Build := string) (Handler := nat)
              DemoCloud.NewCloudBuildClient DemoCloud.NewPubSubClient
              (fun client id => id) (fun client id => id)
              DemoCloud.CreateSubscription DemoCloud.FromError (fun st => st)
              [] tt tt "down" "taken" 0
              "" (Some "build service unavailable") 1
              "pubsub" None 2 "" (Some alreadyExistsError) 3
              eq_refl eq_refl eq_refl)
    as (cs & err & log & w' & Heq & Herr & Hcs & _).
  exists cs, err, log, w'. split; [exact Heq|].
  destruct err as [e|].
  - destruct (proj1 (Herr e) eq_refl) as [H|(_ & H & _ & Hne)]; [discriminate H|].
    injection H as <-. destruct (Hne eq_refl).
  - split; [reflexivity|]. destruct cs as [c|]; [|exact Hcs].
    destruct Hcs as (Hb & Hsub & _). split; [exact Hsub | exact Hb].
Defined.
